(** * override-proxy: rule builder, rule loader and override dispatch loop

    A shallow embedding of [utils.ts] (the [rule] helper), of the rule
    loading loop and of the override dispatch middleware of [main.ts],
    together with the properties of the first-match dispatch policy. *)

From Stdlib Require Import Ascii String DecimalString.
From stdpp Require Import base list strings gmap.

Local Open Scope string_scope.

(** ** JavaScript values used by the proxy *)

Module Js.

(** [String.prototype.toUpperCase] on the ASCII range: the letters
    [a]..[z] are mapped to [A]..[Z], every other code unit is kept. *)
Definition upper_ascii (c : ascii) : ascii :=
  let n := nat_of_ascii c in
  if (97 <=? n)%nat && (n <=? 122)%nat then ascii_of_nat (n - 32) else c.

Fixpoint toUpperCase (s : string) : string :=
  match s with
  | EmptyString => EmptyString
  | String c s' => String (upper_ascii c) (toUpperCase s')
  end.

(** Truthiness of a string: only the empty string is falsy. *)
Definition truthy (s : string) : bool := negb (String.eqb s "").

(** Truthiness of [string | undefined]. *)
Definition truthy_opt (o : option string) : bool :=
  match o with
  | Some s => truthy s
  | None => false
  end.

(** [a || b] where both sides are [string | undefined]. *)
Definition or_opt (a b : option string) : option string :=
  if truthy_opt a then a else b.

(** [a || d] where [d] is a string literal. *)
Definition or_str (a : option string) (d : string) : string :=
  match a with
  | Some s => if truthy s then s else d
  | None => d
  end.

(** [Array.prototype.includes] on an array of strings (strict equality). *)
Definition includes (l : list string) (x : string) : bool :=
  existsb (String.eqb x) l.

(** Values that are thrown (or that a promise rejects with): errors of
    user code, and the errors with a code that Node raises itself. *)
Inductive Thrown : Type :=
| Error (message : string)
| TypeError (message : string)
| Raw (text : string)
| NodeError (code message : string).

(** [String(err)]: [Error.prototype.toString] gives [name: message], or
    the bare name when the message is empty; the errors of Node print
    their code after the name. *)
Definition String_ (e : Thrown) : string :=
  match e with
  | Error m => if truthy m then "Error: " ++ m else "Error"
  | TypeError m => if truthy m then "TypeError: " ++ m else "TypeError"
  | Raw s => s
  | NodeError c m => "Error [" ++ c ++ "]: " ++ m
  end.

(** What [http.ServerResponse.setHeader] throws once the headers of the
    response have been sent. *)
Definition ERR_HTTP_HEADERS_SENT : Thrown :=
  NodeError "ERR_HTTP_HEADERS_SENT"
    "Cannot set headers after they are sent to the client".

(** Outcome of a call: a value, or a thrown exception. *)
Inductive Result (A : Type) : Type :=
| Ok (a : A)
| Throw (e : Thrown).
Arguments Ok {A} a.
Arguments Throw {A} e.

(** A regular expression without the [g] and [y] flags: [test] is a
    function of the subject string; [toString] is its [/source/flags]
    rendering. *)
Record RegExp : Type := {
  regexp_test : string -> bool;
  regexp_toString : string
}.

(** JSON documents written by [res.json]. *)
#[local] Unset Elimination Schemes.
Inductive Json : Type :=
| JNull
| JBool (b : bool)
| JNum (n : Z)
| JStr (s : string)
| JArr (items : list Json)
| JObj (members : list (string * Json)).
#[local] Set Elimination Schemes.

End Js.

Import Js.

(** ** types.ts *)

(** The part of an Express request that rules inspect. *)
Record Request : Type := {
  req_method : string;
  req_path : string;
  req_query : list (string * string);
  req_headers : list (string * string)
}.

(** The data fields of the object a function is called on, as the
    function can read them through [this]. *)
Record This : Type := {
  this_name : option string;
  this_enabled : option bool;
  this_methods : option (list string)
}.

(** [RuleTest = (req) => boolean]. The function is stored in a field and
    called as a method, so it is given its receiver; user code may throw. *)
Definition RuleTest : Type := This -> Request -> Result bool.

(** Calls a handler makes on the response object. *)
Inductive ResCall : Type :=
| RStatus (code : nat)
| RJson (body : Json).

(** [res.status(code)] only records the status code; [res.json(body)]
    sends the response, headers included. *)
Definition sends (c : ResCall) : bool :=
  match c with
  | RStatus _ => false
  | RJson _ => true
  end.

(** What a handler does with [(req, res, next)]: it writes to [res] or
    invokes [next]. *)
Inductive HandlerAction : Type :=
| HRes (c : ResCall)
| HNext.

(** [RuleHandler = (req, res, next) => void | Promise<void>]: the actions
    performed, in order, and whether the call finally threw (or the
    returned promise rejected). *)
Definition RuleHandler : Type := Request -> list HandlerAction * option Thrown.

(** ** utils.ts *)

Record OverrideRule : Type := {
  name : option string;
  enabled : option bool;
  methods : list string;
  test : RuleTest;
  handler : RuleHandler
}.

Record OverrideRuleMeta : Type := {
  meta_file : string;
  meta_export : option string;
  meta_id : string
}.

(** [path?: string | RegExp] *)
Inductive PathSpec : Type :=
| PathString (s : string)
| PathRegExp (r : RegExp).

Record RuleConfig : Type := {
  cfg_name : option string;
  cfg_enabled : option bool;
  cfg_methods : option (list string);
  cfg_path : option PathSpec;
  cfg_test : option RuleTest;
  cfg_handler : RuleHandler
}.

(** [method: Method | Method[]] *)
Inductive MethodArg : Type :=
| OneMethod (m : string)
| ManyMethods (ms : list string).

(** [options?: { name?: string; enabled?: boolean }] *)
Record RuleOptions : Type := {
  opt_name : option string;
  opt_enabled : option bool
}.

(** [x !== false] for [x : boolean | undefined]. *)
Definition not_false (x : option bool) : bool :=
  match x with
  | Some false => false
  | _ => true
  end.

(** [String(path)] / [path.toString()] of a path specifier. *)
Definition path_toString (p : PathSpec) : string :=
  match p with
  | PathString s => s
  | PathRegExp r => regexp_toString r
  end.

(** The receiver of [cfg.test(req)] is the config object. *)
Definition this_config (cfg : RuleConfig) : This :=
  {| this_name := cfg_name cfg;
     this_enabled := cfg_enabled cfg;
     this_methods := cfg_methods cfg |}.

(** Object config form: [rule({ path?, test?, methods?, ... })]. The
    predicate is an arrow function: it has no receiver of its own and reads
    the constants [enabled] and [methods] of this call. *)
Definition rule_config (cfg : RuleConfig) : Result OverrideRule :=
  let enabled := not_false (cfg_enabled cfg) in
  let methods :=
    map toUpperCase
        (match cfg_methods cfg with
         | Some (m :: ms) => m :: ms
         | _ => ["GET"]
         end) in
  let hasPath := match cfg_path cfg with Some _ => true | None => false end in
  if negb hasPath && negb (match cfg_test cfg with Some _ => true | None => false end)
  then Throw (Error "rule(config) requires either path or test")
  else
    let regex :=
      match cfg_path cfg with Some (PathRegExp r) => Some r | _ => None end in
    let toMethod := toUpperCase in
    let testFn : RuleTest :=
      match cfg_test cfg with
      | Some custom =>
          fun _ req =>
            if enabled then
              if includes methods (toMethod (req_method req))
              then custom (this_config cfg) req
              else Ok false
            else Ok false
      | None =>
          fun _ req =>
            if negb enabled then Ok false
            else if negb (includes methods (toMethod (req_method req))) then Ok false
            else
              match cfg_path cfg with
              | Some (PathString s) => Ok (String.eqb (req_path req) s)
              | _ =>
                  match regex with
                  | Some r => Ok (regexp_test r (req_path req))
                  | None =>
                      Throw (TypeError "Cannot read properties of null (reading 'test')")
                  end
              end
      end in
    let name :=
      or_opt (cfg_name cfg)
             (match cfg_path cfg with
              | Some (PathString s) => Some s
              | Some (PathRegExp r) => Some (regexp_toString r)
              | None => None
              end) in
    Ok {| name := if truthy_opt name then name else None;
          enabled := Some enabled;
          methods := methods;
          test := testFn;
          handler := cfg_handler cfg |}.

(** Signature form: [rule(method, path, handler, options?)]. *)
Definition rule_signature (method : MethodArg) (path : PathSpec)
    (handler : RuleHandler) (options : option RuleOptions) : OverrideRule :=
  let methods :=
    map toUpperCase
        (match method with
         | ManyMethods ms => ms
         | OneMethod m => [m]
         end) in
  let enabled :=
    not_false (match options with Some o => opt_enabled o | None => None end) in
  {| name := Some (path_toString path);
     enabled := Some enabled;
     methods := methods;
     test := fun _ req =>
       let m := toUpperCase (or_str (Some (req_method req)) "") in
       if negb enabled then Ok false
       else if negb (includes methods m) then Ok false
       else
         match path with
         | PathString s => Ok (String.eqb (req_path req) s)
         | PathRegExp r => Ok (regexp_test r (req_path req))
         end;
     handler := handler |}.

(** The two overloads of [rule]. *)
Inductive RuleCall : Type :=
| CallSignature (method : MethodArg) (path : PathSpec) (handler : RuleHandler)
    (options : option RuleOptions)
| CallConfig (config : RuleConfig).

Definition rule (c : RuleCall) : Result OverrideRule :=
  match c with
  | CallConfig cfg => rule_config cfg
  | CallSignature method path handler options =>
      Ok (rule_signature method path handler options)
  end.

(** [r.enabled = v]: assignment to the [enabled] field of a rule object. *)
Definition set_enabled (v : option bool) (r : OverrideRule) : OverrideRule :=
  {| name := name r; enabled := v; methods := methods r;
     test := test r; handler := handler r |}.

(** The receiver of [rule.test(req)] is the rule object, with the fields
    it has at the time of the call. *)
Definition this_rule (r : OverrideRule) : This :=
  {| this_name := name r;
     this_enabled := enabled r;
     this_methods := Some (methods r) |}.

(** [rule.test(req)] *)
Definition invoke_test (r : OverrideRule) (req : Request) : Result bool :=
  test r (this_rule r) req.

(** ** main.ts: the override dispatch middleware *)

(** What the middleware does that an observer can see: the predicates and
    handlers it calls (by registry position), the fields it sets on [res],
    the log lines, the response it writes, and the pipeline continuation. *)
Inductive Event : Type :=
| TestCalled (i : nat)
| SetVia (via : string)
| SetMatched (matched : option string)
| LogRequestMatch (id : nat) (label : string) (meta : option OverrideRuleMeta)
| HandlerCalled (i : nat)
| HandlerRes (i : nat) (c : ResCall)
| LogError (id : nat) (err : Thrown) (label : option string)
| Res (c : ResCall)
| NextCalled.

(** Computations of the middleware: the events emitted so far and either a
    value or the exception that interrupted them. *)
Definition M (A : Type) : Type := list Event * Result A.

Definition ret {A} (a : A) : M A := ([], Ok a).

Definition throw {A} (e : Thrown) : M A := ([], Throw e).

Definition emit (ev : Event) : M unit := ([ev], Ok tt).

Definition bind {A B} (m : M A) (f : A -> M B) : M B :=
  match m with
  | (t, Ok a) => let '(t', r) := f a in ((t ++ t')%list, r)
  | (t, Throw e) => (t, Throw e)
  end.

(** [try { m } catch (err) { h err }]. The [catch] block runs in the
    state the interrupted block has left: [h] is given its events. *)
Definition try_catch {A} (m : M A) (h : list Event -> Thrown -> M A) : M A :=
  match m with
  | (t, Throw e) => let '(t', r) := h t e in ((t ++ t')%list, r)
  | (t, Ok a) => (t, Ok a)
  end.

(** [res.headersSent] after the events [t] on a response that was unsent
    before them: some call has sent the response. The override middleware
    is entered with an unsent response, since the middlewares before it
    either answer or call [next]. *)
Definition headersSent (t : list Event) : bool :=
  existsb (fun ev =>
    match ev with
    | HandlerRes _ c => sends c
    | Res c => sends c
    | _ => false
    end) t.

(** [res.json(body)] of Express: it sets [Content-Type] through
    [setHeader], which throws once the headers have been sent. *)
Definition res_json (sent : bool) (body : Json) : M unit :=
  if sent then throw ERR_HTTP_HEADERS_SENT else emit (Res (RJson body)).

(** A value or exception coming back from user code. *)
Definition lift {A} (r : Result A) : M A := ([], r).

Declare Scope M_scope.
Delimit Scope M_scope with M.
Notation "'let*' x := m 'in' k" := (bind m (fun x => k))
  (at level 10, x name, m at level 100, k at level 200) : M_scope.
Notation "m ;; k" := (bind m (fun _ => k))
  (at level 100, k at level 200, right associativity) : M_scope.

(** How an iteration of the [for] loop ends: it falls through to the next
    rule, or the middleware [return]s. *)
Inductive LoopCtl : Type :=
| Continue
| Return.

(** [{ error: "override_failed", detail: String(err) }] *)
Definition override_failed (err : Thrown) : Json :=
  JObj [("error", JStr "override_failed"); ("detail", JStr (String_ err))].

Section Dispatch.

(** [metaMap.get(rule)] for the rule object at position [i] of
    [overrides]. *)
Variable metaMap_get : nat -> option OverrideRuleMeta.
(** [res._logId], set by the request logging middleware. *)
Variable logId : nat.
Variable req : Request.
(** The continuation [next] that Express hands to the middleware. *)
Variable next : M unit.

Local Open Scope M_scope.

(** [rule.test(req)] *)
Definition call_test (i : nat) (rule : OverrideRule) : M bool :=
  emit (TestCalled i) ;; lift (invoke_test rule req).

(** The handler runs with the middleware's own [res] and [next]. *)
Fixpoint perform (i : nat) (acts : list HandlerAction) : M unit :=
  match acts with
  | [] => ret tt
  | HRes c :: acts' => emit (HandlerRes i c) ;; perform i acts'
  | HNext :: acts' => next ;; perform i acts'
  end.

(** [await rule.handler(req, res, next)] *)
Definition call_handler (i : nat) (rule : OverrideRule) : M unit :=
  emit (HandlerCalled i) ;;
  let '(acts, outcome) := handler rule req in
  perform i acts ;;
  match outcome with
  | Some err => throw err
  | None => ret tt
  end.

(** The [try { ... } catch (err) { ... }] statement of one iteration.
    Nothing guards the [res.status(500).json(...)] of the [catch] block:
    when the handler has sent a response before it threw, [json] throws in
    its turn and the exception leaves the middleware. The iterations
    before this one have only called predicates, so the response is sent
    exactly when the [try] block of this iteration has sent it. *)
Definition iteration (i : nat) (rule : OverrideRule) : M LoopCtl :=
  try_catch
    (let* matched := call_test i rule in
     if matched then
       emit (SetVia "override") ;;
       emit (SetMatched (name rule)) ;;
       emit (LogRequestMatch logId (or_str (name rule) "override") (metaMap_get i)) ;;
       call_handler i rule ;;
       ret Return
     else ret Continue)
    (fun seen err =>
       emit (LogError logId err (name rule)) ;;
       emit (Res (RStatus 500)) ;;
       res_json (headersSent seen) (override_failed err) ;;
       ret Return).

(** [for (const rule of overrides) { ... }], from position [i] on. *)
Fixpoint scan (i : nat) (overrides : list OverrideRule) : M LoopCtl :=
  match overrides with
  | [] => ret Continue
  | rule :: rest =>
      let* ctl := iteration i rule in
      match ctl with
      | Return => ret Return
      | Continue => scan (S i) rest
      end
  end.

(** [app.use(async (req, res, next) => { for ...; next(); })] *)
Definition dispatch (overrides : list OverrideRule) : M unit :=
  let* ctl := scan 0 overrides in
  match ctl with
  | Return => ret tt
  | Continue => next
  end.

End Dispatch.

(** ** main.ts: loading the rule modules *)

(** Rule objects live in a store and are referred to by address: the
    loader assigns to [r.name] in place, and [metaMap] is keyed by object
    identity. *)
Abbreviation addr := nat.

Record HeapObj : Type := {
  obj_rule : OverrideRule;
  (** [!Object.isExtensible(r) || Object.isFrozen(r)] *)
  obj_sealed : bool
}.

(** The value bound to an export of a rule module. [VRule a] is an object
    that passes [isOverrideRule]; in an array, the items that do not pass
    it are [None]. *)
Inductive JsValue : Type :=
| VRule (a : addr)
| VArray (items : list (option addr))
| VOther.

(** A loaded module, as [Object.entries(mod)] enumerates it. *)
Definition ModuleNS : Type := list (string * JsValue).

Record Startup : Type := {
  st_heap : list HeapObj;
  st_metaMap : gmap addr OverrideRuleMeta;
  st_overrides : list addr
}.

(** [type Collected = { rule: OverrideRule; exportName?: string }] *)
Record Collected : Type := {
  c_rule : addr;
  c_exportName : option string
}.

(** [mod.default], [mod.rules] *)
Definition mod_get (ns : ModuleNS) (key : string) : option JsValue :=
  snd <$> find (fun kv => String.eqb (fst kv) key) ns.

(** [for (const item of items) if (isOverrideRule(item)) collected.push(...)] *)
Definition collect_items (exportName : option string)
    (items : list (option addr)) : list Collected :=
  omap (fun item =>
          (fun a => {| c_rule := a; c_exportName := exportName |}) <$> item)
       items.

Definition collect (ns : ModuleNS) : list Collected :=
  (* Legacy default (rule or array of rules) *)
  (match mod_get ns "default" with
   | Some (VArray items) => collect_items None items
   | Some (VRule a) => [{| c_rule := a; c_exportName := None |}]
   | _ => []
   end
   ++
   (* Legacy named 'rules' *)
   match mod_get ns "rules" with
   | Some (VArray items) => collect_items None items
   | _ => []
   end
   ++
   (* Named exports *)
   flat_map
     (fun kv =>
        let '(key, val) := kv in
        if String.eqb key "default" || String.eqb key "rules" then []
        else
          match val with
          | VRule a => [{| c_rule := a; c_exportName := Some key |}]
          | VArray items => collect_items (Some key) items
          | VOther => []
          end)
     ns)%list.

(** [r.name = exportName] *)
Definition set_name (v : option string) (r : OverrideRule) : OverrideRule :=
  {| name := v; enabled := enabled r; methods := methods r;
     test := test r; handler := handler r |}.

(** "Finalize & store metadata", for one collected entry. An address
    always denotes a live object; the [None] case is never taken. *)
Definition finalize (rel : string) (st : Startup) (c : Collected) : Startup :=
  match st_heap st !! c_rule c with
  | None => st
  | Some o =>
      let exportName := c_exportName c in
      let '(heap, r) :=
        if truthy_opt exportName && negb (truthy_opt (name (obj_rule o))) then
          let '(heap, r) :=
            if obj_sealed o then
              ((st_heap st ++ [{| obj_rule := obj_rule o; obj_sealed := false |}])%list,
               length (st_heap st))
            else (st_heap st, c_rule c) in
          (alter (fun o' => {| obj_rule := set_name exportName (obj_rule o');
                               obj_sealed := obj_sealed o' |}) r heap, r)
        else (st_heap st, c_rule c) in
      let id :=
        rel ++ (match exportName with
                | Some e => if truthy e then ":" ++ e else ""
                | None => ""
                end) in
      {| st_heap := heap;
         st_metaMap :=
           <[r := {| meta_file := rel; meta_export := exportName; meta_id := id |}]>
             (st_metaMap st);
         st_overrides := (st_overrides st ++ [r])%list |}
  end.

(** One turn of [for (const rel of entries)]: [None] is a module whose
    import throws, which is logged and skipped. *)
Definition load_module (st : Startup) (entry : string * option ModuleNS) : Startup :=
  match entry with
  | (rel, Some ns) => fold_left (finalize rel) (collect ns) st
  | (_, None) => st
  end.

(** The state when the server starts listening, from the objects the rule
    modules created. *)
Definition load (heap : list HeapObj) (entries : list (string * option ModuleNS)) : Startup :=
  fold_left load_module entries
            {| st_heap := heap; st_metaMap := ∅; st_overrides := [] |}.

(** The rule objects [overrides] refers to, in order. *)
Definition registry (st : Startup) : list OverrideRule :=
  omap (fun a => obj_rule <$> st_heap st !! a) (st_overrides st).

(** [metaMap.get(overrides[i])] *)
Definition registry_meta (st : Startup) (i : nat) : option OverrideRuleMeta :=
  st_overrides st !! i ≫= fun a => st_metaMap st !! a.

(** The stage mounted after the dispatch loop is the proxy fallback. It
    answers later, when the upstream server has: the call of [next]
    itself writes nothing to [res]. *)
Definition passthrough : M unit := emit NextCalled.

(** The dispatch middleware of the running server. *)
Definition serve (st : Startup) (logId : nat) (req : Request) : M unit :=
  dispatch (registry_meta st) logId req passthrough (registry st).

(** ** Reading what the middleware did *)

(** Positions of the rules whose predicate was evaluated, in order. *)
Definition tested (t : list Event) : list nat :=
  omap (fun ev => match ev with TestCalled i => Some i | _ => None end) t.

(** Positions of the rules whose handler was invoked, in order. *)
Definition invoked (t : list Event) : list nat :=
  omap (fun ev => match ev with HandlerCalled i => Some i | _ => None end) t.

(** The calls the dispatch loop itself made on [res]. *)
Definition responses (t : list Event) : list ResCall :=
  omap (fun ev => match ev with Res c => Some c | _ => None end) t.

(** The calls the handlers made on [res]. *)
Definition handler_writes (t : list Event) : list ResCall :=
  omap (fun ev => match ev with HandlerRes _ c => Some c | _ => None end) t.

(** The calls on [res] among the actions of a handler. *)
Definition written (acts : list HandlerAction) : list ResCall :=
  omap (fun a => match a with HRes c => Some c | HNext => None end) acts.

(** Whether the actions of a handler have sent the response. *)
Definition responded (acts : list HandlerAction) : bool :=
  existsb sends (written acts).

(** The bodies sent during [t], by the handlers and by the loop. *)
Definition bodies (t : list Event) : list Json :=
  omap (fun ev =>
    match ev with
    | HandlerRes _ (RJson b) => Some b
    | Res (RJson b) => Some b
    | _ => None
    end) t.

(** The event a handler action leaves when the handler of rule [i] runs
    with the pipeline continuation as its [next]. *)
Definition act_event (i : nat) (a : HandlerAction) : Event :=
  match a with
  | HRes c => HandlerRes i c
  | HNext => NextCalled
  end.

Section Outcome.

Variable metaMap_get : nat -> option OverrideRuleMeta.
Variable logId : nat.
Variable req : Request.

(** What the [catch] block does, on a response that is [sent] or not. *)
Definition catch_events (sent : bool) (rule : OverrideRule) (err : Thrown) : list Event :=
  LogError logId err (name rule)
  :: Res (RStatus 500)
  :: (if sent then [] else [Res (RJson (override_failed err))]).

(** What follows [TestCalled i] in the iteration that ends the loop. *)
Definition verdict (i : nat) (rule : OverrideRule) : list Event :=
  match invoke_test rule req with
  | Ok true =>
      [SetVia "override";
       SetMatched (name rule);
       LogRequestMatch logId (or_str (name rule) "override") (metaMap_get i);
       HandlerCalled i]
      ++ map (act_event i) (fst (handler rule req))
      ++ match snd (handler rule req) with
         | Some err => catch_events (responded (fst (handler rule req))) rule err
         | None => []
         end
  | Throw err => catch_events false rule err
  | Ok false => []
  end%list.

(** The error of the iteration that ends the loop, if there is one. *)
Definition failure (rule : OverrideRule) : option Thrown :=
  match invoke_test rule req with
  | Throw err => Some err
  | Ok true => snd (handler rule req)
  | Ok false => None
  end.

(** Whether the [catch] block of the iteration that ends the loop finds
    the response already sent by the handler. *)
Definition escapes (rule : OverrideRule) : bool :=
  match invoke_test rule req with
  | Ok true =>
      match snd (handler rule req) with
      | Some _ => responded (fst (handler rule req))
      | None => false
      end
  | _ => false
  end.

(** How the middleware ends then. *)
Definition ending (rule : OverrideRule) : Result unit :=
  if escapes rule then Throw ERR_HTTP_HEADERS_SENT else Ok tt.

End Outcome.

(** The [enabled] setting a call of [rule] passes: [config.enabled] in the
    config form, [options?.enabled] in the signature form. *)
Definition call_enabled (c : RuleCall) : option bool :=
  match c with
  | CallConfig cfg => cfg_enabled cfg
  | CallSignature _ _ _ options => options ≫= opt_enabled
  end.

(** ** Requests, handlers and rules of the scenarios *)

Definition GET (p : string) : Request :=
  {| req_method := "GET"; req_path := p; req_query := []; req_headers := [] |}.

Definition POST (p : string) : Request :=
  {| req_method := "POST"; req_path := p; req_query := []; req_headers := [] |}.

(** [(_req, res) => res.json(body)] *)
Definition replies (body : Json) : RuleHandler :=
  fun _ => ([HRes (RJson body)], None).

(** [(_req, _res, next) => next()] *)
Definition defers : RuleHandler := fun _ => ([HNext], None).

(** [() => { throw new Error(message) }] *)
Definition fails (message : string) : RuleHandler :=
  fun _ => ([], Some (Error message)).

(** [(_req, res) => { res.json(body); throw new Error(message) }] *)
Definition replies_then_fails (body : Json) (message : string) : RuleHandler :=
  fun _ => ([HRes (RJson body)], Some (Error message)).

(** [(_req, _res, next) => { next(); throw new Error(message) }] *)
Definition defers_then_fails (message : string) : RuleHandler :=
  fun _ => ([HNext], Some (Error message)).

(** [(_req, res) => { res.status(code); throw new Error(message) }] *)
Definition marks_then_fails (code : nat) (message : string) : RuleHandler :=
  fun _ => ([HRes (RStatus code)], Some (Error message)).

(** An empty [metaMap]. *)
Definition no_meta : nat -> option OverrideRuleMeta := fun _ => None.

(** Rules on the path [/x], as in the end-to-end scenario of the
    specification, and a third one after them. *)
Definition ruleA : OverrideRule :=
  rule_signature (OneMethod "GET") (PathString "/x") (replies (JObj [("a", JNum 1)])) None.

Definition ruleB : OverrideRule :=
  rule_signature (OneMethod "GET") (PathString "/x") (replies (JObj [("b", JNum 2)])) None.

Definition ruleC : OverrideRule :=
  rule_signature (OneMethod "GET") (PathString "/x") (replies (JObj [("c", JNum 3)])) None.

Definition ruleDefers : OverrideRule :=
  rule_signature (OneMethod "get") (PathString "/x") defers None.

Definition ruleFails : OverrideRule :=
  rule_signature (OneMethod "GET") (PathString "/x") (fails "boom") None.

Definition ruleRepliesThenFails : OverrideRule :=
  rule_signature (OneMethod "GET") (PathString "/x")
    (replies_then_fails (JObj [("a", JNum 1)]) "boom") None.

Definition ruleDefersThenFails : OverrideRule :=
  rule_signature (OneMethod "GET") (PathString "/x") (defers_then_fails "boom") None.

Definition ruleMarksThenFails : OverrideRule :=
  rule_signature (OneMethod "GET") (PathString "/x") (marks_then_fails 404 "boom") None.

(** A plain rule object whose predicate throws. *)
Definition ruleFlaky : OverrideRule :=
  {| name := Some "flaky";
     enabled := Some true;
     methods := ["GET"];
     test := fun _ _ => Throw (Error "boom");
     handler := replies JNull |}.

(** A plain rule object whose predicate is a method that reads
    [this.enabled]: unlike the predicates [rule] builds, it follows the
    field. *)
Definition ruleByHand : OverrideRule :=
  {| name := Some "by-hand";
     enabled := Some true;
     methods := ["GET"];
     test := fun this _ => Ok (not_false (this_enabled this));
     handler := replies JNull |}.

(** The disabled rule of the README:
    [rule({ name: "temp-off", path: "/disabled", enabled: false, handler })]. *)
Definition tempOff : RuleConfig :=
  {| cfg_name := Some "temp-off";
     cfg_enabled := Some false;
     cfg_methods := None;
     cfg_path := Some (PathString "/disabled");
     cfg_test := None;
     cfg_handler := replies (JObj [("off", JBool true)]) |}.

(** The header trigger of the README as a custom test, on [GET] by
    default: [test: (req) => req.headers["x-mock-mode"] === "1"]. *)
Definition mockMode : RuleConfig :=
  {| cfg_name := Some "mock-mode";
     cfg_enabled := None;
     cfg_methods := None;
     cfg_path := None;
     cfg_test := Some (fun _ req =>
       Ok (bool_decide (("x-mock-mode", "1") ∈ req_headers req)));
     cfg_handler := replies (JObj [("x", JNum 1)]) |}.

(** The ping rule of the README, without its [methods] field:
    [rule({ name: "ping", path: "/__ping", handler })]. *)
Definition ping : RuleConfig :=
  {| cfg_name := Some "ping";
     cfg_enabled := None;
     cfg_methods := None;
     cfg_path := Some (PathString "/__ping");
     cfg_test := None;
     cfg_handler := replies (JObj [("ok", JBool true)]) |}.

(** A config with a handler only. *)
Definition handlerOnly : RuleConfig :=
  {| cfg_name := Some "nothing-to-match";
     cfg_enabled := None;
     cfg_methods := Some ["GET"];
     cfg_path := None;
     cfg_test := None;
     cfg_handler := replies JNull |}.

(** [rules/_demo.ts]:
    [export const DemoHello = rule("GET", "/__demo/hello", (_req, res) =>
    res.json({ message: "hello", ts: new Date().toISOString() }))],
    at a fixed instant. *)
Definition DemoHello : OverrideRule :=
  rule_signature (OneMethod "GET") (PathString "/__demo/hello")
    (replies (JObj [("message", JStr "hello"); ("ts", JStr "1970-01-01T00:00:00.000Z")]))
    None.

Definition demo_heap : list HeapObj :=
  [{| obj_rule := DemoHello; obj_sealed := false |}].

Definition demo_entries : list (string * option ModuleNS) :=
  [("_demo.ts", Some [("DemoHello", VRule 0)])].

(** ** utils.ts: legacy export normalization *)

(** [RulesModule]: an exports object with optional [default] and [rules],
    a rule, or an array of rules. *)
Inductive RulesModule : Type :=
| ModExports (default : option (addr + list addr)) (rules : option (list addr))
| ModRule (a : addr)
| ModArray (rs : list addr).

(** [normalizeModule(m)]. An entry is [Some a] for the rule object at
    [a], and [None] for an exports object that has neither [rules] nor
    [default]: the last [return [m]] hands it out as if it were a rule. An
    array is truthy even when empty, so [m.rules] wins whenever it is
    there. *)
Definition normalizeModule (m : RulesModule) : list (option addr) :=
  match m with
  | ModArray rs => Some <$> rs
  | ModExports _ (Some rs) => Some <$> rs
  | ModExports (Some (inr ds)) None => Some <$> ds
  | ModExports (Some (inl d)) None => [Some d]
  | ModExports None None => [None]
  | ModRule a => [Some a]
  end.

(** The exports object [{ default, rules }] as the loader of [main.ts]
    enumerates it. *)
Definition exports_ns (default : option (addr + list addr))
    (rules : option (list addr)) : ModuleNS :=
  (match default with
   | Some (inl d) => [("default", VRule d)]
   | Some (inr ds) => [("default", VArray (Some <$> ds))]
   | None => []
   end
   ++
   match rules with
   | Some rs => [("rules", VArray (Some <$> rs))]
   | None => []
   end)%list.

(** ** main.ts: console output *)

(** The [chalk] colours the log helpers use. *)
Inductive Color : Type :=
| Gray
| Cyan
| Red.

(** [String(n)] for a request id. *)
Definition String_nat (n : nat) : string :=
  NilEmpty.string_of_uint (Nat.to_uint n).

(** [`${meta.file}${meta.export ? ":" + meta.export : ""}`], as
    [logRequestMatch] and the startup listing both write it. *)
Definition meta_source (meta : OverrideRuleMeta) : string :=
  meta_file meta ++
  match meta_export meta with
  | Some e => if truthy e then ":" ++ e else ""
  | None => ""
  end.

(** [logRequestStart]: the text given to [console.log(chalk.gray(...))]. *)
Definition logRequestStart (id : nat) (method url : string) : Color * string :=
  (Gray, "[" ++ String_nat id ++ "] -> " ++ method ++ " " ++ url).


(** [logError] *)
Definition logError (id : nat) (err : Thrown) (label : option string) : Color * string :=
  (Red,
   "[" ++ String_nat id ++ "] ERROR " ++
   match label with
   | Some l => if truthy l then l ++ " " else ""
   | None => ""
   end ++ String_ err).

(** One line of the [Overrides:] listing that [startServer] prints. *)
Definition listing_line (st : Startup) (a : addr) (r : OverrideRule) : string :=
  let src :=
    match st_metaMap st !! a with
    | Some meta => meta_source meta
    | None => "?"
    end in
  "  - " ++ or_str (name r) "<unnamed>" ++
  match enabled r with
  | Some false => " (off)"
  | _ => ""
  end ++ " :: " ++ src.

(** [overrides.map((r) => ...)] of the listing. *)
Definition listing (st : Startup) : list string :=
  omap (fun a => (fun o => listing_line st a (obj_rule o)) <$> st_heap st !! a)
       (st_overrides st).

(** ** main.ts: CORS *)

(** A string is the sequence of bytes of its UTF-8 encoding, as in a
    string literal. [String.prototype.trim] removes the white space and
    the line terminators of ECMAScript, which take one, two or three
    bytes.

    One byte: TAB, LF, VT, FF, CR and SP. *)
Definition is_space (c : ascii) : bool :=
  let n := nat_of_ascii c in
  ((9 <=? n)%nat && (n <=? 13)%nat) || (n =? 32)%nat.

(** Two bytes: the no-break space U+00A0, [C2 A0]. *)
Definition is_space2 (a b : ascii) : bool :=
  (nat_of_ascii a =? 194)%nat && (nat_of_ascii b =? 160)%nat.

(** Three bytes: U+1680 [E1 9A 80]; U+2000 to U+200A [E2 80 80] to
    [E2 80 8A]; the line and paragraph separators U+2028 and U+2029
    [E2 80 A8] and [E2 80 A9]; U+202F [E2 80 AF]; U+205F [E2 81 9F];
    U+3000 [E3 80 80]; and the byte order mark U+FEFF [EF BB BF]. *)
Definition is_space3 (a b c : ascii) : bool :=
  let x := nat_of_ascii a in
  let y := nat_of_ascii b in
  let z := nat_of_ascii c in
  ((x =? 225)%nat && (y =? 154)%nat && (z =? 128)%nat)
  || ((x =? 226)%nat && (y =? 128)%nat &&
      (((128 <=? z)%nat && (z <=? 138)%nat)
       || (z =? 168)%nat || (z =? 169)%nat || (z =? 175)%nat))
  || ((x =? 226)%nat && (y =? 129)%nat && (z =? 159)%nat)
  || ((x =? 227)%nat && (y =? 128)%nat && (z =? 128)%nat)
  || ((x =? 239)%nat && (y =? 187)%nat && (z =? 191)%nat).

(** Removes from the front of [s] every character that [w1], [w2] or [w3]
    recognises by its one, two or three bytes. *)
Fixpoint strip (w1 : ascii -> bool) (w2 : ascii -> ascii -> bool)
    (w3 : ascii -> ascii -> ascii -> bool) (s : string) : string :=
  match s with
  | String a s1 =>
      if w1 a then strip w1 w2 w3 s1
      else
        match s1 with
        | String b s2 =>
            if w2 a b then strip w1 w2 w3 s2
            else
              match s2 with
              | String c s3 => if w3 a b c then strip w1 w2 w3 s3 else s
              | EmptyString => s
              end
        | EmptyString => s
        end
  | EmptyString => EmptyString
  end.

(** [s.trimStart()] *)
Definition trimStart (s : string) : string := strip is_space is_space2 is_space3 s.

(** The string read backwards, in front of [acc]. *)
Fixpoint reverse_onto (acc s : string) : string :=
  match s with
  | String c s' => reverse_onto (String c acc) s'
  | EmptyString => acc
  end.

(** [s.trimEnd()]: the same characters, met from the end with their bytes
    in reverse order. *)
Definition trimEnd (s : string) : string :=
  reverse_onto ""
    (strip is_space (fun b a => is_space2 a b) (fun c b a => is_space3 a b c)
       (reverse_onto "" s)).

(** [s.trim()] *)
Definition trim (s : string) : string := trimEnd (trimStart s).

(** The no-break space. *)
Definition nbsp : string := String "194"%char (String "160"%char "").

(** [s.split(",")] *)
Fixpoint split_comma (s : string) : list string :=
  match s with
  | EmptyString => [""]
  | String c s' =>
      if Ascii.eqb c "," then "" :: split_comma s'
      else
        match split_comma s' with
        | piece :: pieces => String c piece :: pieces
        | [] => [String c ""]
        end
  end.

(** [allowedOrigins]: [null] unless [CORS_ORIGINS] is set and not
    empty. *)
Definition allowedOrigins (CORS_ORIGINS : option string) : option (list string) :=
  if truthy_opt CORS_ORIGINS then
    match CORS_ORIGINS with
    | Some s => Some (filter (fun o => truthy o = true) (trim <$> split_comma s))
    | None => None
    end
  else None.

(** The [origin] callback of [corsOptions]: [callback(null, true)] is
    [Ok true], [callback(new Error(...))] is [Throw]. Without an allow-list
    the option is [true], which accepts every origin. *)
Definition cors_origin (CORS_ORIGINS : option string) (origin : option string) : Result bool :=
  match allowedOrigins CORS_ORIGINS with
  | Some allowed =>
      if negb (truthy_opt origin) then Ok true
      else if includes allowed (or_str origin "") then Ok true
      else Throw (Error "Not allowed by CORS")
  | None => Ok true
  end.

(** ** main.ts: request ids *)

(** The counter [reqSeq], and the [_logId] of each response object that
    has one (response objects by identity). *)
Record LogState : Type := {
  reqSeq : nat;
  logIds : gmap nat nat
}.

(** What reaches the console and the client from the two places that
    draw request ids. *)
Inductive Output : Type :=
| Console (line : Color * string)
| WriteHead (status : nat) (headers : list (string * string))
| End_ (body : Json).

(** The request logging middleware, for what concerns the id:
    [const id = ++reqSeq; res._logId = id;
    logRequestStart(id, req.method, req.originalUrl)]. *)
Definition request_logging (res : nat) (method originalUrl : string)
    (st : LogState) : LogState * list Output :=
  let id := S (reqSeq st) in
  ({| reqSeq := id; logIds := <[res := id]> (logIds st) |},
   [Console (logRequestStart id method originalUrl)]).

(** The [error] handler of the proxy: [res._logId || ++reqSeq]; the status
    line only if ["headersSent" in res && !res.headersSent] ([None] is a
    [res] without that property); [res.end(JSON.stringify(...))] always. *)
Definition proxy_error (res : nat) (headersSent : option bool) (err : Thrown)
    (st : LogState) : LogState * list Output :=
  let '(st', id) :=
    match logIds st !! res with
    | Some (S n) => (st, S n)
    | _ => ({| reqSeq := S (reqSeq st); logIds := logIds st |}, S (reqSeq st))
    end in
  (st',
   [Console (logError id err None)]
   ++ match headersSent with
      | Some false => [WriteHead 502 [("Content-Type", "application/json")]]
      | _ => []
      end
   ++ [End_ (JObj [("error", JStr "proxy_error"); ("detail", JStr (String_ err))])])%list.

(** What happens to the id counter, in the order it happens: a request
    arrives at the logging middleware, or the proxy reports an error for a
    response. *)
Inductive LogStep : Type :=
| Arrive (res : nat) (method originalUrl : string)
| ProxyFail (res : nat) (headersSent : option bool) (err : Thrown).

Definition log_step (st : LogState) (s : LogStep) : LogState :=
  match s with
  | Arrive res method url => fst (request_logging res method url st)
  | ProxyFail res hs err => fst (proxy_error res hs err st)
  end.

(** [let reqSeq = 0], and no response yet. *)
Definition log_start : LogState := {| reqSeq := 0; logIds := ∅ |}.

(** ** Vocabulary of the further properties *)

(** What a path specifier requires of [req.path]: equality for a string,
    [test] for a regular expression. *)
Definition path_matches (p : PathSpec) (s : string) : bool :=
  match p with
  | PathString x => String.eqb s x
  | PathRegExp r => regexp_test r s
  end.

(** A call of [rule] that matches by path [p]: the signature form, or the
    config form with [path] and without [test]. *)
Definition path_driven (c : RuleCall) (p : PathSpec) : Prop :=
  match c with
  | CallSignature _ path _ _ => path = p
  | CallConfig cfg => cfg_path cfg = Some p /\ cfg_test cfg = None
  end.

(** The methods a call of [rule] declares, before upper-casing. *)
Definition declared_methods (c : RuleCall) : list string :=
  match c with
  | CallSignature (OneMethod m) _ _ _ => [m]
  | CallSignature (ManyMethods ms) _ _ _ => ms
  | CallConfig cfg =>
      match cfg_methods cfg with
      | Some (m :: ms) => m :: ms
      | _ => ["GET"]
      end
  end.

(** A rule on [/x] built with [{ enabled: false }]. *)
Definition ruleOff : OverrideRule :=
  rule_signature (OneMethod "GET") (PathString "/x") (replies (JObj [("off", JBool true)]))
    (Some {| opt_name := None; opt_enabled := Some false |}).

(** The metadata the loader stores for an export of the file [rel]. *)
Definition provenance (rel : string) (exportName : option string) : OverrideRuleMeta :=
  {| meta_file := rel;
     meta_export := exportName;
     meta_id := rel ++ match exportName with
                       | Some e => if truthy e then ":" ++ e else ""
                       | None => ""
                       end |}.

(** The object the loader leaves where [o] was, or registers in its
    place, when it gives it the export name [key]. *)
Definition named (key : string) (o : HeapObj) : HeapObj :=
  {| obj_rule := set_name (Some key) (obj_rule o); obj_sealed := false |}.


(** What loading can do to a rule object: nothing, or give an extensible
    object without a name the name of an export. *)
Definition kept_or_named (o o' : HeapObj) : Prop :=
  o' = o \/
  exists key,
    truthy key = true /\
    truthy_opt (name (obj_rule o)) = false /\
    obj_sealed o = false /\
    o' = named key o.

(** The first truthy string of a list of [string | undefined]. *)
Fixpoint first_truthy (l : list (option string)) : option string :=
  match l with
  | [] => None
  | x :: l' => if truthy_opt x then x else first_truthy l'
  end.

(** The names a call of [rule] provides, in the order [rule] looks at
    them. *)
Definition builder_names (c : RuleCall) : list (option string) :=
  match c with
  | CallSignature _ path _ _ => [Some (path_toString path)]
  | CallConfig cfg => [cfg_name cfg; path_toString <$> cfg_path cfg]
  end.

(** How the state after some loading relates to the state before: the
    registry has grown at its end, every object is still there, untouched
    or named, and no metadata was dropped. *)
Definition extends (st st' : Startup) : Prop :=
  (exists more, st_overrides st' = (st_overrides st ++ more)%list) /\
  (forall a o, st_heap st !! a = Some o ->
               exists o', st_heap st' !! a = Some o' /\ kept_or_named o o') /\
  (forall a, is_Some (st_metaMap st !! a) -> is_Some (st_metaMap st' !! a)).

(** Every registered address denotes an object and has the metadata of an
    export of one of the files. *)
Definition registered (files : list string) (st : Startup) : Prop :=
  forall a, In a (st_overrides st) ->
    (exists o, st_heap st !! a = Some o) /\
    (exists rel e, In rel files /\ st_metaMap st !! a = Some (provenance rel e)).

(** A frozen rule object without a name, as a plain object export. *)
Definition frozenRule : HeapObj :=
  {| obj_rule := {| name := None; enabled := None; methods := ["GET"];
                    test := fun _ req => Ok (String.eqb (req_path req) "/frozen");
                    handler := replies JNull |};
     obj_sealed := true |}.

(** The state before loading, with the objects of the demo module. *)
Definition demo_start : Startup :=
  {| st_heap := demo_heap; st_metaMap := ∅; st_overrides := [] |}.

(** The state before loading, with the frozen rule object. *)
Definition frozen_start : Startup :=
  {| st_heap := [frozenRule]; st_metaMap := ∅; st_overrides := [] |}.

(** Every character of the string satisfies [P]. *)
Fixpoint all_chars (P : ascii -> bool) (s : string) : bool :=
  match s with
  | EmptyString => true
  | String c s' => P c && all_chars P s'
  end.

(** A comma or a blank of one byte. *)
Definition comma_or_space (c : ascii) : bool := Ascii.eqb c "," || is_space c.

(** An origin as it is written in a list: not empty, without a comma, and
    with nothing in front or behind that [trim] would remove. *)
Definition clean_origin (o : string) : Prop :=
  truthy o = true /\
  all_chars (fun c => negb (Ascii.eqb c ",")) o = true /\
  trim o = o.

(** The state of the id counter after a run of steps from server start. *)
Definition run_log (steps : list LogStep) : LogState :=
  fold_left log_step steps log_start.

(** The number of requests that arrived. *)
Fixpoint arrivals (steps : list LogStep) : nat :=
  match steps with
  | [] => 0
  | Arrive _ _ _ :: rest => S (arrivals rest)
  | ProxyFail _ _ _ :: rest => arrivals rest
  end.

(** Every proxy error is reported for a response whose request had
    arrived before ([seen] holds the responses that arrived so far). *)
Fixpoint failures_follow_arrivals (seen : list nat) (steps : list LogStep) : bool :=
  match steps with
  | [] => true
  | Arrive res _ _ :: rest => failures_follow_arrivals (res :: seen) rest
  | ProxyFail res _ _ :: rest =>
      bool_decide (res ∈ seen) && failures_follow_arrivals seen rest
  end.

(** Ids in use are positive, not above the counter, and not shared. *)
Definition ids_ok (st : LogState) : Prop :=
  (forall res id, logIds st !! res = Some id -> 1 <= id <= reqSeq st) /\
  (forall res res' id,
     logIds st !! res = Some id -> logIds st !! res' = Some id -> res = res').

(** The rules of [default], in order. *)
Definition default_rules (default : option (addr + list addr)) : list addr :=
  match default with
  | Some (inl d) => [d]
  | Some (inr ds) => ds
  | None => []
  end.

(** * Properties of the rule builder *)

Section BuilderFacts.

Lemma includes_In (l : list string) (x : string) :
  includes l x = true <-> In x l.
Proof.
  unfold includes. rewrite existsb_exists. split.
  - intros (y & Hy & Heq). apply String.eqb_eq in Heq. now subst.
  - intros Hx. exists x. split; [assumption | apply String.eqb_refl].
Qed.

Lemma upper_ascii_idem (c : ascii) : upper_ascii (upper_ascii c) = upper_ascii c.
Proof.
  destruct c as [[] [] [] [] [] [] [] []]; reflexivity.
Qed.

Lemma toUpperCase_idem (s : string) : toUpperCase (toUpperCase s) = toUpperCase s.
Proof.
  induction s as [| c s IH]; simpl; [reflexivity |].
  now rewrite upper_ascii_idem, IH.
Qed.

(** Every element of a list built by [.map((m) => m.toUpperCase())] is
    left unchanged by upper-casing. *)
Lemma map_toUpperCase_upper (l : list string) (m : string) :
  In m (map toUpperCase l) -> toUpperCase m = m.
Proof.
  rewrite in_map_iff. intros (x & <- & _). apply toUpperCase_idem.
Qed.

(** The config form succeeds as soon as a path or a test is given. *)
Lemma rule_config_ok (cfg : RuleConfig) :
  cfg_path cfg <> None \/ cfg_test cfg <> None ->
  exists r, rule_config cfg = Ok r.
Proof.
  intros H. unfold rule_config.
  destruct (cfg_path cfg), (cfg_test cfg); simpl; eauto.
  destruct H; congruence.
Qed.

(** The fields of a rule made by the config form. *)
Lemma rule_config_fields (cfg : RuleConfig) (r : OverrideRule) :
  rule_config cfg = Ok r ->
  enabled r = Some (not_false (cfg_enabled cfg)) /\
  methods r = map toUpperCase
                  (match cfg_methods cfg with
                   | Some (m :: ms) => m :: ms
                   | _ => ["GET"]
                   end) /\
  handler r = cfg_handler cfg.
Proof.
  unfold rule_config.
  destruct (negb _ && negb _); [discriminate |].
  intros [= <-]. simpl. auto.
Qed.

(** The config form never yields an empty method list: an omitted or
    empty [methods] is replaced by [["GET"]]. *)
Lemma rule_config_methods_nonempty (cfg : RuleConfig) (r : OverrideRule) :
  rule_config cfg = Ok r -> methods r <> [].
Proof.
  intros H. apply rule_config_fields in H as (_ & -> & _).
  destruct (cfg_methods cfg) as [[| m ms] |]; discriminate.
Qed.

(** Both forms upper-case every method they store. *)
Lemma rule_methods_upper (c : RuleCall) (r : OverrideRule) (m : string) :
  rule c = Ok r -> In m (methods r) -> toUpperCase m = m.
Proof.
  destruct c as [method path h options | cfg]; simpl.
  - intros [= <-]. simpl. apply map_toUpperCase_upper.
  - intros H. apply rule_config_fields in H as (_ & -> & _).
    apply map_toUpperCase_upper.
Qed.

(** The signature form stores exactly as many methods as it is given. *)
Lemma rule_signature_methods (method : MethodArg) (path : PathSpec)
    (h : RuleHandler) (options : option RuleOptions) :
  methods (rule_signature method path h options) =
  map toUpperCase (match method with ManyMethods ms => ms | OneMethod m => [m] end).
Proof. reflexivity. Qed.

End BuilderFacts.

(** C4. A rule built by either form of [rule] with [enabled: false] has a
    predicate that returns [false] on every request, whatever its receiver,
    path specifier or custom test. *)
Theorem disabled_rule_never_matches (c : RuleCall) (r : OverrideRule) :
  call_enabled c = Some false ->
  rule c = Ok r ->
  forall (this : This) (req : Request),
    test r this req = Ok false /\ invoke_test r req = Ok false.
Proof.
  intros Hen Hr this req. unfold invoke_test.
  destruct c as [method path h options | cfg]; simpl in Hen, Hr.
  - injection Hr as <-. simpl.
    destruct options as [o |]; simpl in Hen; [| discriminate].
    rewrite Hen. simpl. auto.
  - unfold rule_config in Hr. rewrite Hen in Hr. simpl in Hr.
    destruct (negb _ && negb _); [discriminate |].
    injection Hr as <-. simpl.
    destruct (cfg_test cfg); auto.
Qed.

(** C5. In the config form with a custom test, the predicate returns [true]
    exactly when the rule is enabled, the upper-cased request method is in
    the rule's method list, and the custom test returns [true]. *)
Theorem custom_test_is_guarded (cfg : RuleConfig) (custom : RuleTest) :
  cfg_test cfg = Some custom ->
  exists r,
    rule_config cfg = Ok r /\
    forall req,
      invoke_test r req = Ok true <->
      enabled r = Some true /\
      In (toUpperCase (req_method req)) (methods r) /\
      custom (this_config cfg) req = Ok true.
Proof.
  intros Hc.
  destruct (rule_config_ok cfg) as [r Hr]; [right; congruence |].
  exists r. split; [assumption |]. intros req.
  pose proof (rule_config_fields _ _ Hr) as (Hen & Hm & _).
  rewrite Hen, Hm, <- includes_In.
  unfold rule_config in Hr. rewrite Hc in Hr.
  rewrite andb_false_r in Hr. injection Hr as <-.
  unfold invoke_test. simpl.
  destruct (not_false (cfg_enabled cfg)); simpl.
  - destruct (includes _ _); simpl.
    + tauto.
    + split; [discriminate | intros (_ & [=] & _)].
  - split; [discriminate | intros ([=] & _)].
Qed.

(** C6. The config form called with neither [path] nor [test] throws the
    error "rule(config) requires either path or test" and returns no
    rule. *)
Theorem config_requires_path_or_test (cfg : RuleConfig) :
  cfg_path cfg = None ->
  cfg_test cfg = None ->
  rule_config cfg = Throw (Error "rule(config) requires either path or test") /\
  forall r, rule (CallConfig cfg) <> Ok r.
Proof.
  intros Hp Ht. unfold rule, rule_config. rewrite Hp, Ht. simpl.
  split; [reflexivity | discriminate].
Qed.

(** C8. The signature form called with an empty array of methods returns a
    rule whose [methods] list is empty. *)
Theorem signature_form_empty_methods (path : PathSpec) (h : RuleHandler)
    (options : option RuleOptions) :
  exists r,
    rule (CallSignature (ManyMethods []) path h options) = Ok r /\
    methods r = [] /\
    forall req, invoke_test r req = Ok false.
Proof.
  eexists. split; [reflexivity |]. split; [reflexivity |].
  intros req. unfold invoke_test. simpl.
  destruct (not_false _); reflexivity.
Qed.

(** C10. For a rule built by either form of [rule], assigning to the
    [enabled] field of the returned object does not change what its
    predicate returns: the flag was fixed when the rule was built. *)
Theorem enabled_is_captured (c : RuleCall) (r : OverrideRule) :
  rule c = Ok r ->
  forall (v : option bool) (req : Request),
    invoke_test (set_enabled v r) req = invoke_test r req.
Proof.
  intros Hr v req. unfold invoke_test.
  destruct c as [method path h options | cfg]; simpl in Hr.
  - injection Hr as <-. reflexivity.
  - unfold rule_config in Hr.
    destruct (negb _ && negb _); [discriminate |].
    injection Hr as <-. simpl.
    destruct (cfg_test cfg); reflexivity.
Qed.

(** * Properties of the dispatch loop *)

Section DispatchFacts.

Variable metaMap_get : nat -> option OverrideRuleMeta.
Variable logId : nat.
Variable req : Request.

Local Abbreviation run := (dispatch metaMap_get logId req passthrough).
Local Abbreviation no_match := (fun r : OverrideRule => invoke_test r req = Ok false).

Lemma perform_passthrough (i : nat) (acts : list HandlerAction) :
  perform passthrough i acts = (map (act_event i) acts, Ok tt).
Proof.
  induction acts as [| [c |] acts IH]; simpl; [reflexivity | |];
    rewrite IH; reflexivity.
Qed.

Lemma iteration_continue (i : nat) (rule : OverrideRule) :
  invoke_test rule req = Ok false ->
  iteration metaMap_get logId req passthrough i rule = ([TestCalled i], Ok Continue).
Proof.
  intros H. unfold iteration, call_test. rewrite H. reflexivity.
Qed.

Lemma headersSent_acts (i : nat) (acts : list HandlerAction) :
  headersSent (map (act_event i) acts) = responded acts.
Proof.
  unfold responded, written.
  induction acts as [| [c |] acts IH]; simpl; [reflexivity | | exact IH].
  rewrite IH. reflexivity.
Qed.

Lemma iteration_return (i : nat) (rule : OverrideRule) :
  invoke_test rule req <> Ok false ->
  iteration metaMap_get logId req passthrough i rule =
  (TestCalled i :: verdict metaMap_get logId req i rule,
   if escapes req rule then Throw ERR_HTTP_HEADERS_SENT else Ok Return).
Proof.
  intros H. unfold iteration, call_test, call_handler, verdict, escapes.
  destruct (invoke_test rule req) as [[|] | err]; [| congruence |].
  - destruct (handler rule req) as [acts outcome]. simpl.
    rewrite perform_passthrough. simpl.
    destruct outcome as [err |]; simpl.
    + rewrite app_nil_r, headersSent_acts.
      destruct (responded acts); reflexivity.
    + rewrite !app_nil_r. reflexivity.
  - reflexivity.
Qed.

Lemma scan_no_match (i : nat) (rules : list OverrideRule) :
  Forall no_match rules ->
  scan metaMap_get logId req passthrough i rules =
  (map TestCalled (seq i (length rules)), Ok Continue).
Proof.
  intros H. revert i.
  induction H as [| r rules Hr _ IH]; intros i; simpl; [reflexivity |].
  rewrite iteration_continue by assumption. simpl.
  rewrite IH. reflexivity.
Qed.

Lemma scan_stops (i : nat) (pre post : list OverrideRule) (r : OverrideRule) :
  Forall no_match pre ->
  invoke_test r req <> Ok false ->
  scan metaMap_get logId req passthrough i (pre ++ r :: post) =
  ((map TestCalled (seq i (S (length pre))) ++ verdict metaMap_get logId req (i + length pre) r)%list,
   if escapes req r then Throw ERR_HTTP_HEADERS_SENT else Ok Return).
Proof.
  intros Hpre Hr. revert i.
  induction Hpre as [| r' pre Hr' _ IH]; intros i.
  - cbn [app scan length]. rewrite iteration_return by assumption.
    rewrite Nat.add_0_r.
    destruct (escapes req r); simpl; rewrite ?app_nil_r; reflexivity.
  - cbn [app scan length]. rewrite iteration_continue by assumption.
    cbn [bind]. rewrite IH. cbn [seq map app].
    rewrite Nat.add_succ_comm. reflexivity.
Qed.

(** Every registry either has no rule whose predicate does anything but
    return [false], or has a first such rule. *)
Lemma first_stop (rules : list OverrideRule) :
  Forall no_match rules \/
  exists pre r post,
    rules = (pre ++ r :: post)%list /\
    Forall no_match pre /\
    invoke_test r req <> Ok false.
Proof.
  induction rules as [| r rules IH]; [left; constructor |].
  destruct (invoke_test r req) as [[|] | err] eqn:Hr.
  - right. exists [], r, rules. rewrite Hr. repeat split; [constructor | discriminate].
  - destruct IH as [IH | (pre & r' & post & -> & Hpre & Hr')].
    + left. constructor; assumption.
    + right. exists (r :: pre), r', post.
      repeat split; [constructor; assumption | assumption].
  - right. exists [], r, rules. rewrite Hr. repeat split; [constructor | discriminate].
Qed.

(** The loop stops at the first rule whose predicate returns [true] or
    throws, and calls [next] only when there is none. *)
Lemma dispatch_inv (rules : list OverrideRule) :
  (Forall no_match rules /\
   run rules =
   ((map TestCalled (seq 0 (length rules)) ++ [NextCalled])%list, Ok tt))
  \/
  (exists k r,
     rules !! k = Some r /\
     (forall k' r', k' < k -> rules !! k' = Some r' -> invoke_test r' req = Ok false) /\
     invoke_test r req <> Ok false /\
     run rules =
     ((map TestCalled (seq 0 (S k)) ++ verdict metaMap_get logId req k r)%list,
      ending req r)).
Proof.
  destruct (first_stop rules) as [H | (pre & r & post & -> & Hpre & Hr)].
  - left. split; [assumption |].
    unfold dispatch. rewrite scan_no_match by assumption. reflexivity.
  - right. exists (length pre), r. repeat split.
    + apply list_lookup_middle. reflexivity.
    + intros k' r' Hlt Hk'. rewrite lookup_app_l in Hk' by assumption.
      rewrite Forall_lookup in Hpre. eapply Hpre; eassumption.
    + assumption.
    + unfold dispatch, ending. rewrite scan_stops by assumption.
      destruct (escapes req r); cbn [bind ret]; rewrite ?app_nil_r; reflexivity.
Qed.

(** ** Reading a trace *)

Lemma tested_app (t1 t2 : list Event) :
  tested (t1 ++ t2) = (tested t1 ++ tested t2)%list.
Proof. apply omap_app. Qed.

Lemma invoked_app (t1 t2 : list Event) :
  invoked (t1 ++ t2) = (invoked t1 ++ invoked t2)%list.
Proof. apply omap_app. Qed.

Lemma responses_app (t1 t2 : list Event) :
  responses (t1 ++ t2) = (responses t1 ++ responses t2)%list.
Proof. apply omap_app. Qed.

Lemma handler_writes_app (t1 t2 : list Event) :
  handler_writes (t1 ++ t2) = (handler_writes t1 ++ handler_writes t2)%list.
Proof. apply omap_app. Qed.

Lemma handler_writes_tests (l : list nat) : handler_writes (map TestCalled l) = [].
Proof. induction l as [| i l IH]; simpl; [reflexivity | exact IH]. Qed.

Lemma handler_writes_acts (i : nat) (acts : list HandlerAction) :
  handler_writes (map (act_event i) acts) = written acts.
Proof.
  induction acts as [| [c |] acts IH]; simpl; [reflexivity | | exact IH].
  unfold written in *. simpl. rewrite <- IH. reflexivity.
Qed.

Lemma tested_tests (l : list nat) : tested (map TestCalled l) = l.
Proof. induction l as [| i l IH]; simpl; [| rewrite IH]; reflexivity. Qed.

Lemma invoked_tests (l : list nat) : invoked (map TestCalled l) = [].
Proof. induction l as [| i l IH]; simpl; [reflexivity | exact IH]. Qed.

Lemma responses_tests (l : list nat) : responses (map TestCalled l) = [].
Proof. induction l as [| i l IH]; simpl; [reflexivity | exact IH]. Qed.

Lemma next_not_in_tests (l : list nat) : ~ In NextCalled (map TestCalled l).
Proof. rewrite in_map_iff. intros (i & [=] & _). Qed.

Lemma tested_acts (i : nat) (acts : list HandlerAction) :
  tested (map (act_event i) acts) = [].
Proof. induction acts as [| [c |] acts IH]; simpl; [reflexivity | exact IH ..]. Qed.

Lemma invoked_acts (i : nat) (acts : list HandlerAction) :
  invoked (map (act_event i) acts) = [].
Proof. induction acts as [| [c |] acts IH]; simpl; [reflexivity | exact IH ..]. Qed.

Lemma responses_acts (i : nat) (acts : list HandlerAction) :
  responses (map (act_event i) acts) = [].
Proof. induction acts as [| [c |] acts IH]; simpl; [reflexivity | exact IH ..]. Qed.

Lemma next_in_acts (i : nat) (acts : list HandlerAction) :
  In NextCalled (map (act_event i) acts) <-> In HNext acts.
Proof.
  rewrite in_map_iff. split.
  - intros ([c |] & Heq & Hin); [discriminate | assumption].
  - intros Hin. exists HNext. split; [reflexivity | assumption].
Qed.

Lemma tested_catch (sent : bool) (rule : OverrideRule) (err : Thrown) :
  tested (catch_events logId sent rule err) = [].
Proof. destruct sent; reflexivity. Qed.

Lemma invoked_catch (sent : bool) (rule : OverrideRule) (err : Thrown) :
  invoked (catch_events logId sent rule err) = [].
Proof. destruct sent; reflexivity. Qed.

Lemma handler_writes_catch (sent : bool) (rule : OverrideRule) (err : Thrown) :
  handler_writes (catch_events logId sent rule err) = [].
Proof. destruct sent; reflexivity. Qed.

Lemma responses_catch (sent : bool) (rule : OverrideRule) (err : Thrown) :
  responses (catch_events logId sent rule err) =
  RStatus 500 :: if sent then [] else [RJson (override_failed err)].
Proof. destruct sent; reflexivity. Qed.

Lemma next_not_in_catch (sent : bool) (rule : OverrideRule) (err : Thrown) :
  ~ In NextCalled (catch_events logId sent rule err).
Proof. destruct sent; simpl; intuition discriminate. Qed.

Lemma tested_verdict (i : nat) (rule : OverrideRule) : tested (verdict metaMap_get logId req i rule) = [].
Proof.
  unfold verdict. destruct (invoke_test rule req) as [[|] | err]; try reflexivity.
  rewrite !tested_app, tested_acts.
  destruct (snd (handler rule req)); [rewrite tested_catch |]; reflexivity.
Qed.

Lemma invoked_verdict (i : nat) (rule : OverrideRule) :
  invoked (verdict metaMap_get logId req i rule) =
  match invoke_test rule req with Ok true => [i] | _ => [] end.
Proof.
  unfold verdict. destruct (invoke_test rule req) as [[|] | err]; try reflexivity.
  rewrite !invoked_app, invoked_acts.
  destruct (snd (handler rule req)); [rewrite invoked_catch |]; reflexivity.
Qed.

Lemma responses_verdict (i : nat) (rule : OverrideRule) :
  responses (verdict metaMap_get logId req i rule) =
  match failure req rule with
  | Some err =>
      RStatus 500 :: if escapes req rule then [] else [RJson (override_failed err)]
  | None => []
  end.
Proof.
  unfold verdict, failure, escapes.
  destruct (invoke_test rule req) as [[|] | err]; try reflexivity.
  rewrite !responses_app, responses_acts.
  destruct (snd (handler rule req)); [rewrite responses_catch |]; reflexivity.
Qed.

Lemma handler_writes_verdict (i : nat) (rule : OverrideRule) :
  handler_writes (verdict metaMap_get logId req i rule) =
  match invoke_test rule req with
  | Ok true => written (fst (handler rule req))
  | _ => []
  end.
Proof.
  unfold verdict. destruct (invoke_test rule req) as [[|] | err]; try reflexivity.
  rewrite !handler_writes_app, handler_writes_acts.
  destruct (snd (handler rule req)); [rewrite handler_writes_catch |];
    simpl; rewrite ?app_nil_r; reflexivity.
Qed.

Lemma next_in_verdict (i : nat) (rule : OverrideRule) :
  In NextCalled (verdict metaMap_get logId req i rule) <->
  invoke_test rule req = Ok true /\ In HNext (fst (handler rule req)).
Proof.
  unfold verdict. destruct (invoke_test rule req) as [[|] | err].
  - rewrite !in_app_iff, next_in_acts. split.
    + intros [H | [H | H]].
      * simpl in H. intuition discriminate.
      * auto.
      * destruct (snd (handler rule req)); [| destruct H].
        exfalso. eapply next_not_in_catch. exact H.
    + intros [_ H]. auto.
  - simpl. intuition discriminate.
  - simpl. intuition discriminate.
Qed.

(** The trace of a failed iteration ends with the [catch] block. *)
Lemma verdict_failure (i : nat) (rule : OverrideRule) (err : Thrown) :
  failure req rule = Some err ->
  exists before,
    verdict metaMap_get logId req i rule =
    (before ++ catch_events logId (escapes req rule) rule err)%list.
Proof.
  unfold failure, verdict, escapes.
  destruct (invoke_test rule req) as [[|] | e]; [| discriminate |].
  - intros ->. eexists. rewrite app_assoc. reflexivity.
  - intros [= ->]. exists []. reflexivity.
Qed.

(** The bodies sent: those of the handler, then the one of the [catch]
    block when it could be sent. *)
Lemma bodies_app (t1 t2 : list Event) :
  bodies (t1 ++ t2) = (bodies t1 ++ bodies t2)%list.
Proof. apply omap_app. Qed.

Lemma bodies_tests (l : list nat) : bodies (map TestCalled l) = [].
Proof. induction l as [| i l IH]; simpl; [reflexivity | exact IH]. Qed.

Lemma bodies_acts_quiet (i : nat) (acts : list HandlerAction) :
  responded acts = false -> bodies (map (act_event i) acts) = [].
Proof.
  unfold responded, written.
  induction acts as [| [[code | b] |] acts IH]; simpl; intros H;
    [reflexivity | apply IH; exact H | discriminate H | apply IH; exact H].
Qed.

(** A rule whose predicate does not return [false] is at or after the
    position where the loop stops. *)
Lemma stop_le (rules : list OverrideRule) (k i : nat) (ri : OverrideRule) :
  (forall k' r', k' < k -> rules !! k' = Some r' -> invoke_test r' req = Ok false) ->
  rules !! i = Some ri ->
  invoke_test ri req <> Ok false ->
  k <= i.
Proof.
  intros Hbefore Hi Hri.
  destruct (Nat.le_gt_cases k i) as [Hle | Hgt]; [assumption |].
  exfalso. apply Hri. eapply Hbefore; eassumption.
Qed.

End DispatchFacts.

Create Rewrite HintDb trace.
#[export] Hint Rewrite
  tested_app tested_tests tested_acts tested_verdict
  invoked_app invoked_tests invoked_acts invoked_verdict
  responses_app responses_tests responses_acts responses_verdict
  handler_writes_app handler_writes_tests handler_writes_acts handler_writes_verdict
  app_nil_r : trace.

(** Reads [tested], [invoked] and [responses] off a trace of the loop. *)
Ltac read_trace := cbn [fst snd]; autorewrite with trace.
Ltac read_trace_in H := cbn [fst snd] in H; autorewrite with trace in H.

(** * The dispatch policy *)

Section DispatchPolicy.

Variable metaMap_get : nat -> option OverrideRuleMeta.
Variable logId : nat.
Variable req : Request.

Local Abbreviation run := (dispatch metaMap_get logId req passthrough).

(** C1. When the predicates of rule [i] and of a later rule [j] both
    return [true], neither the handler nor the predicate of rule [j] is
    reached; and when rule [i] is the first match (the predicates of all
    rules before it return [false]) the handler of rule [i] is the only one
    invoked, after the predicates of the rules [0..i]. *)
Theorem first_match_wins (rules : list OverrideRule) (i j : nat)
    (ri rj : OverrideRule) :
  rules !! i = Some ri ->
  rules !! j = Some rj ->
  i < j ->
  invoke_test ri req = Ok true ->
  invoke_test rj req = Ok true ->
  (~ In j (invoked (fst (run rules))) /\ ~ In j (tested (fst (run rules)))) /\
  ((forall k rk, k < i -> rules !! k = Some rk -> invoke_test rk req = Ok false) ->
   invoked (fst (run rules)) = [i] /\ tested (fst (run rules)) = seq 0 (S i)).
Proof.
  intros Hi Hj Hlt Hti Htj.
  destruct (dispatch_inv metaMap_get logId req rules)
    as [[Hall _] | (k & r & Hk & Hbefore & Hr & ->)].
  - rewrite Forall_lookup in Hall. specialize (Hall _ _ Hi). simpl in Hall. congruence.
  - assert (k <= i) as Hle.
    { eapply stop_le; try eassumption. congruence. }
    read_trace.
    split; [split |].
    + destruct (invoke_test r req) as [[|] |]; simpl; lia.
    + rewrite in_seq. lia.
    + intros Hfirst.
      assert (k = i) as ->.
      { destruct (Nat.eq_dec k i) as [| Hne]; [assumption |].
        exfalso. apply Hr. apply (Hfirst k r); [lia | assumption]. }
      rewrite Hi in Hk. injection Hk as <-. rewrite Hti. auto.
Qed.

(** C2. When the predicate of every rule of the registry returns [false],
    the loop evaluates each predicate once, in order, invokes no handler,
    writes no response, and calls [next]. *)
Theorem no_match_passes_through (rules : list OverrideRule) :
  Forall (fun r => invoke_test r req = Ok false) rules ->
  run rules =
  ((map TestCalled (seq 0 (length rules)) ++ [NextCalled])%list, Ok tt) /\
  invoked (fst (run rules)) = [] /\
  responses (fst (run rules)) = [].
Proof.
  intros Hall.
  destruct (dispatch_inv metaMap_get logId req rules)
    as [[_ ->] | (k & r & Hk & _ & Hr & _)].
  - read_trace. auto.
  - rewrite Forall_lookup in Hall. specialize (Hall _ _ Hk). simpl in Hall. congruence.
Qed.

(** C3. When the predicate of the rule being evaluated throws, or it
    returns [true] and the handler throws or rejects before it has sent a
    response or called [next], the loop catches the error and the
    middleware returns normally, its trace ending with the log line and
    the response [500] [{error: "override_failed", detail: String(err)}].
    That body is the only one sent for the request, by the loop or by a
    handler; no later predicate is evaluated, nothing is evaluated twice,
    and [next] is not called. *)
Theorem error_gives_single_500 (rules : list OverrideRule) (i : nat)
    (ri : OverrideRule) (err : Thrown) :
  rules !! i = Some ri ->
  In i (tested (fst (run rules))) ->
  invoke_test ri req = Throw err \/
  (invoke_test ri req = Ok true /\
   snd (handler ri req) = Some err /\
   responded (fst (handler ri req)) = false /\
   ~ In HNext (fst (handler ri req))) ->
  snd (run rules) = Ok tt /\
  (exists before,
     fst (run rules) =
     (before ++ [LogError logId err (name ri);
                 Res (RStatus 500);
                 Res (RJson (override_failed err))])%list) /\
  responses (fst (run rules)) = [RStatus 500; RJson (override_failed err)] /\
  bodies (fst (run rules)) = [override_failed err] /\
  tested (fst (run rules)) = seq 0 (S i) /\
  invoked (fst (run rules)) =
    match invoke_test ri req with Ok true => [i] | _ => [] end /\
  ~ In NextCalled (fst (run rules)).
Proof.
  intros Hi Hin Herr.
  assert (invoke_test ri req <> Ok false) as Hnf.
  { destruct Herr as [H | [H _]]; congruence. }
  assert (failure req ri = Some err) as Hfail.
  { unfold failure. destruct Herr as [-> | (-> & H & _)]; [reflexivity | assumption]. }
  assert (escapes req ri = false) as Hesc.
  { unfold escapes. destruct Herr as [-> | (-> & -> & -> & _)]; reflexivity. }
  destruct (dispatch_inv metaMap_get logId req rules)
    as [[Hall _] | (k & r & Hk & Hbefore & Hr & Hrun)].
  - rewrite Forall_lookup in Hall. specialize (Hall _ _ Hi). simpl in Hall. congruence.
  - rewrite Hrun in Hin |- *. read_trace_in Hin.
    apply in_seq in Hin.
    assert (k <= i) as Hle by (eapply stop_le; eassumption).
    assert (k = i) as -> by lia.
    rewrite Hi in Hk. injection Hk as <-.
    read_trace. rewrite Hfail. unfold ending. rewrite Hesc.
    split; [reflexivity |]. split.
    { destruct (verdict_failure metaMap_get logId req i ri err Hfail) as [before ->].
      rewrite Hesc.
      exists (map TestCalled (seq 0 (S i)) ++ before)%list.
      rewrite <- app_assoc. reflexivity. }
    split; [reflexivity |]. split.
    { rewrite bodies_app, bodies_tests. unfold verdict.
      destruct Herr as [-> | (-> & -> & Hquiet & _)]; [reflexivity |].
      rewrite Hquiet, !bodies_app, bodies_acts_quiet by exact Hquiet.
      reflexivity. }
    do 2 (split; [reflexivity |]).
    intros Hnext. apply in_app_iff in Hnext as [Hnext | Hnext].
    + eapply next_not_in_tests. exact Hnext.
    + apply next_in_verdict in Hnext as [Htrue Hnext].
      destruct Herr as [Hthrow | (_ & _ & _ & Hno)]; [congruence | exact (Hno Hnext)].
Qed.

(** C9. When the handler of the matched rule calls [next], whether or not
    it also responds, the pipeline continuation runs from inside the
    handler call, and the loop does not resume: the predicates evaluated
    are those of the rules [0..i] only, no other handler is invoked, and
    nothing after the handler call is a predicate or handler call. If the
    handler then returns normally, the loop writes no response of its
    own. *)
Theorem next_from_handler_ends_scan (rules : list OverrideRule) (i : nat)
    (ri : OverrideRule) :
  rules !! i = Some ri ->
  In i (invoked (fst (run rules))) ->
  In HNext (fst (handler ri req)) ->
  tested (fst (run rules)) = seq 0 (S i) /\
  invoked (fst (run rules)) = [i] /\
  (exists before after,
     fst (run rules) = (before ++ HandlerCalled i :: after)%list /\
     In NextCalled after /\
     tested after = [] /\
     invoked after = []) /\
  (snd (handler ri req) = None -> responses (fst (run rules)) = []).
Proof.
  intros Hi Hin Hnext.
  destruct (dispatch_inv metaMap_get logId req rules)
    as [[_ Hrun] | (k & r & Hk & Hbefore & Hr & Hrun)];
    rewrite Hrun in Hin |- *; read_trace_in Hin.
  - destruct Hin.
  - destruct (invoke_test r req) as [[|] | e] eqn:Htest;
      simpl in Hin; try contradiction.
    destruct Hin as [-> | []].
    rewrite Hi in Hk. injection Hk as <-.
    read_trace. unfold failure. rewrite Htest.
    repeat split.
    + unfold verdict. rewrite Htest.
      exists (map TestCalled (seq 0 (S i)) ++
              [SetVia "override"; SetMatched (name ri);
               LogRequestMatch logId (or_str (name ri) "override") (metaMap_get i)])%list.
      eexists. split; [rewrite <- app_assoc; reflexivity |].
      repeat split.
      * apply in_app_iff. left. apply next_in_acts. assumption.
      * rewrite tested_app, tested_acts.
        destruct (snd (handler ri req)); rewrite ?tested_catch; reflexivity.
      * rewrite invoked_app, invoked_acts.
        destruct (snd (handler ri req)); rewrite ?invoked_catch; reflexivity.
    + intros ->. reflexivity.
Qed.

End DispatchPolicy.

(** * Properties of the rule loader *)

Section LoaderFacts.

(** A rule that already has a truthy [name] keeps it: the export name is
    only recorded in [metaMap]. *)
Lemma finalize_keeps_name (rel key : string) (st : Startup) (a : addr) (o : HeapObj) :
  st_heap st !! a = Some o ->
  truthy_opt (name (obj_rule o)) = true ->
  let st' := finalize rel st {| c_rule := a; c_exportName := Some key |} in
  st_heap st' = st_heap st /\
  st_overrides st' = (st_overrides st ++ [a])%list /\
  meta_export <$> st_metaMap st' !! a = Some (Some key).
Proof.
  intros Ho Hname. unfold finalize. simpl. rewrite Ho, Hname.
  rewrite andb_false_r. simpl. rewrite lookup_insert_eq. auto.
Qed.

(** A rule without a truthy [name] takes a truthy export name, in place
    when the object is extensible. *)
Lemma finalize_assigns_export_name (rel key : string) (st : Startup) (a : addr)
    (o : HeapObj) :
  st_heap st !! a = Some o ->
  truthy_opt (name (obj_rule o)) = false ->
  truthy key = true ->
  obj_sealed o = false ->
  let st' := finalize rel st {| c_rule := a; c_exportName := Some key |} in
  name <$> (obj_rule <$> st_heap st' !! a) = Some (Some key) /\
  st_overrides st' = (st_overrides st ++ [a])%list.
Proof.
  intros Ho Hname Hkey Hsealed. unfold finalize. simpl.
  rewrite Ho, Hname, Hkey, Hsealed. simpl.
  rewrite list_lookup_alter_eq, Ho. auto.
Qed.

(** Both forms of [rule] give the rule a truthy [name] as soon as the path
    specifier has a non-empty string form. *)
Lemma rule_name_from_path (c : RuleCall) (r : OverrideRule) (p : PathSpec) :
  rule c = Ok r ->
  match c with
  | CallSignature _ path _ _ => path = p
  | CallConfig cfg => cfg_path cfg = Some p /\ truthy_opt (cfg_name cfg) = false
  end ->
  truthy (path_toString p) = true ->
  name r = Some (path_toString p).
Proof.
  destruct c as [method path h options | cfg]; simpl.
  - intros [= <-] -> _. reflexivity.
  - unfold rule_config. intros Hr [Hp Hn] Ht. rewrite Hp in Hr. simpl in Hr.
    injection Hr as <-. simpl. unfold or_opt. rewrite Hn.
    destruct p as [s | re]; simpl in *; rewrite Ht; reflexivity.
Qed.

End LoaderFacts.

(** * Scenarios *)

Example by_hand_follows_field :
  invoke_test ruleByHand (GET "/x") = Ok true /\
  invoke_test (set_enabled (Some false) ruleByHand) (GET "/x") = Ok false.
Proof. split; reflexivity. Qed.

(** The config form defaults to [GET]. *)
Example ping_defaults_to_GET :
  exists r,
    rule_config ping = Ok r /\
    name r = Some "ping" /\
    methods r = ["GET"] /\
    invoke_test r (GET "/__ping") = Ok true /\
    invoke_test r (POST "/__ping") = Ok false.
Proof. eexists. repeat split; reflexivity. Qed.

(** The end-to-end scenario: rule A wins by order, rule B is not reached. *)
Example rule_A_wins :
  dispatch no_meta 1 (GET "/x") passthrough [ruleA; ruleB] =
  ([TestCalled 0; SetVia "override"; SetMatched (Some "/x");
    LogRequestMatch 1 "/x" None; HandlerCalled 0;
    HandlerRes 0 (RJson (JObj [("a", JNum 1)]))],
   Ok tt).
Proof. reflexivity. Qed.

(** The end-to-end scenario with an empty registry. *)
Example empty_registry :
  dispatch no_meta 1 (GET "/anything") passthrough [] = ([NextCalled], Ok tt).
Proof. reflexivity. Qed.

(** A lower-case method given to the signature form matches [GET]. *)
Example lowercase_method_matches :
  methods ruleDefers = ["GET"] /\
  invoke_test ruleDefers (GET "/x") = Ok true /\
  invoke_test ruleDefers (POST "/x") = Ok false.
Proof. repeat split; reflexivity. Qed.

(** C1, as it is worded, at the registry [ruleA; ruleB; ruleC] with
    [i = 1] and [j = 2]: both predicates return [true], yet the loop
    invokes a handler that is not that of rule 1 (it is that of rule 0). *)
Lemma second_match_not_served :
  ~ ([ruleA; ruleB; ruleC] !! 1 = Some ruleB ->
     [ruleA; ruleB; ruleC] !! 2 = Some ruleC ->
     1 < 2 ->
     invoke_test ruleB (GET "/x") = Ok true ->
     invoke_test ruleC (GET "/x") = Ok true ->
     forall k,
       In k (invoked (fst (dispatch no_meta 1 (GET "/x") passthrough
                                    [ruleA; ruleB; ruleC]))) ->
       k = 1).
Proof.
  intros H.
  specialize (H eq_refl eq_refl ltac:(lia) eq_refl eq_refl 0).
  assert (0 = 1) as Habs; [| discriminate Habs].
  apply H. vm_compute. left. reflexivity.
Qed.

(** C2, as it is worded, at the registry [ruleFlaky]: no predicate returns
    [true], yet [next] is not called, because the predicate throws and the
    loop answers [500]. *)
Lemma throwing_predicate_blocks_passthrough :
  ~ (Forall (fun r => invoke_test r (GET "/x") <> Ok true) [ruleFlaky] ->
     invoked (fst (dispatch no_meta 1 (GET "/x") passthrough [ruleFlaky])) = [] /\
     In NextCalled (fst (dispatch no_meta 1 (GET "/x") passthrough [ruleFlaky]))).
Proof.
  intros H.
  destruct H as [_ H].
  - repeat constructor. discriminate.
  - vm_compute in H. intuition discriminate.
Qed.

(** C3, as it is worded, at two matching rules whose handlers throw. The
    handler of the first has called [next] before: the passthrough has been
    attempted. The handler of the second has answered before: the only
    body sent is its own, the [json] call of the [catch] block throws, and
    the middleware ends with that exception. *)
Lemma failing_handler_not_single_500 :
  ~ (invoke_test ruleDefersThenFails (GET "/x") = Ok true ->
     snd (handler ruleDefersThenFails (GET "/x")) = Some (Error "boom") ->
     ~ In NextCalled
         (fst (dispatch no_meta 1 (GET "/x") passthrough [ruleDefersThenFails])))
  /\
  ~ (invoke_test ruleRepliesThenFails (GET "/x") = Ok true ->
     snd (handler ruleRepliesThenFails (GET "/x")) = Some (Error "boom") ->
     snd (dispatch no_meta 1 (GET "/x") passthrough [ruleRepliesThenFails]) = Ok tt /\
     bodies (fst (dispatch no_meta 1 (GET "/x") passthrough [ruleRepliesThenFails])) =
     [override_failed (Error "boom")]).
Proof.
  split.
  - intros H. apply (H eq_refl eq_refl). vm_compute. tauto.
  - intros H. destruct (H eq_refl eq_refl) as [Hend _].
    vm_compute in Hend. discriminate Hend.
Qed.

(** What the loop does in the second case: the handler's body is the only
    one sent, the [catch] block logs and sets the status, and its [json]
    call throws. *)
Lemma reply_then_error_trace :
  dispatch no_meta 1 (GET "/x") passthrough [ruleRepliesThenFails; ruleB] =
  ([TestCalled 0;
    SetVia "override";
    SetMatched (Some "/x");
    LogRequestMatch 1 "/x" None;
    HandlerCalled 0;
    HandlerRes 0 (RJson (JObj [("a", JNum 1)]));
    LogError 1 (Error "boom") (Some "/x");
    Res (RStatus 500)],
   Throw ERR_HTTP_HEADERS_SENT).
Proof. reflexivity. Qed.

(** C7. The rule that [rules/_demo.ts] exports as [DemoHello] is listed
    and logged under the string form of its path, ["/__demo/hello"]: the
    export name only reaches [metaMap]. *)
Theorem demo_rule_logged_by_path :
  map name (registry (load demo_heap demo_entries)) = [Some "/__demo/hello"] /\
  registry_meta (load demo_heap demo_entries) 0 =
    Some {| meta_file := "_demo.ts";
            meta_export := Some "DemoHello";
            meta_id := "_demo.ts:DemoHello" |} /\
  fst (serve (load demo_heap demo_entries) 1 (GET "/__demo/hello")) =
    [TestCalled 0;
     SetVia "override";
     SetMatched (Some "/__demo/hello");
     LogRequestMatch 1 "/__demo/hello"
       (Some {| meta_file := "_demo.ts";
                meta_export := Some "DemoHello";
                meta_id := "_demo.ts:DemoHello" |});
     HandlerCalled 0;
     HandlerRes 0
       (RJson (JObj [("message", JStr "hello");
                     ("ts", JStr "1970-01-01T00:00:00.000Z")]))].
Proof. repeat split; vm_compute; reflexivity. Qed.

(** ** Instances *)

(** Rule A before rule B, both on [GET /x]. *)
Lemma first_match_wins_witness :
  (invoke_test ruleA (GET "/x") = Ok true /\ invoke_test ruleB (GET "/x") = Ok true) /\
  ~ In 1 (invoked (fst (dispatch no_meta 1 (GET "/x") passthrough [ruleA; ruleB]))) /\
  ~ In 1 (tested (fst (dispatch no_meta 1 (GET "/x") passthrough [ruleA; ruleB]))) /\
  invoked (fst (dispatch no_meta 1 (GET "/x") passthrough [ruleA; ruleB])) = [0].
Proof.
  split; [split; reflexivity |].
  destruct (first_match_wins no_meta 1 (GET "/x") [ruleA; ruleB] 0 1 ruleA ruleB)
    as [[H1 H2] H3]; try reflexivity; try lia.
  split; [exact H1 | split; [exact H2 |]].
  apply H3. intros k rk Hk. lia.
Defined.

(** Rules A and B on a request for another path. *)
Lemma no_match_passes_through_witness :
  Forall (fun r => invoke_test r (GET "/y") = Ok false) [ruleA; ruleB] /\
  dispatch no_meta 1 (GET "/y") passthrough [ruleA; ruleB] =
  ([TestCalled 0; TestCalled 1; NextCalled], Ok tt).
Proof.
  assert (Forall (fun r => invoke_test r (GET "/y") = Ok false) [ruleA; ruleB]) as H.
  { repeat constructor. }
  split; [exact H |].
  exact (proj1 (no_match_passes_through no_meta 1 (GET "/y") [ruleA; ruleB] H)).
Defined.

(** A matching rule whose handler throws, before rule B; and one whose
    handler sets a status before it throws. *)
Lemma error_gives_single_500_witness :
  (snd (handler ruleFails (GET "/x")) = Some (Error "boom") /\
   dispatch no_meta 1 (GET "/x") passthrough [ruleFails; ruleB] =
   ([TestCalled 0;
     SetVia "override";
     SetMatched (Some "/x");
     LogRequestMatch 1 "/x" None;
     HandlerCalled 0;
     LogError 1 (Error "boom") (Some "/x");
     Res (RStatus 500);
     Res (RJson (JObj [("error", JStr "override_failed"); ("detail", JStr "Error: boom")]))],
    Ok tt)) /\
  bodies (fst (dispatch no_meta 1 (GET "/x") passthrough [ruleFails; ruleB])) =
  [JObj [("error", JStr "override_failed"); ("detail", JStr "Error: boom")]] /\
  bodies (fst (dispatch no_meta 1 (GET "/x") passthrough [ruleMarksThenFails])) =
  [JObj [("error", JStr "override_failed"); ("detail", JStr "Error: boom")]].
Proof.
  split; [split; reflexivity |].
  split.
  - destruct (error_gives_single_500 no_meta 1 (GET "/x") [ruleFails; ruleB] 0
                ruleFails (Error "boom"))
      as (_ & _ & _ & Hbodies & _).
    + reflexivity.
    + vm_compute. left. reflexivity.
    + right. repeat split. simpl. tauto.
    + exact Hbodies.
  - destruct (error_gives_single_500 no_meta 1 (GET "/x") [ruleMarksThenFails] 0
                ruleMarksThenFails (Error "boom"))
      as (_ & _ & _ & Hbodies & _).
    + reflexivity.
    + vm_compute. left. reflexivity.
    + right. repeat split. simpl. intuition discriminate.
    + exact Hbodies.
Defined.

(** A matching rule whose handler calls [next], before rule B. *)
Lemma next_from_handler_ends_scan_witness :
  In HNext (fst (handler ruleDefers (GET "/x"))) /\
  tested (fst (dispatch no_meta 1 (GET "/x") passthrough [ruleDefers; ruleB])) = [0] /\
  invoked (fst (dispatch no_meta 1 (GET "/x") passthrough [ruleDefers; ruleB])) = [0] /\
  responses (fst (dispatch no_meta 1 (GET "/x") passthrough [ruleDefers; ruleB])) = [].
Proof.
  split; [left; reflexivity |].
  destruct (next_from_handler_ends_scan no_meta 1 (GET "/x") [ruleDefers; ruleB] 0
              ruleDefers)
    as (Htested & Hinvoked & _ & Hres).
  - reflexivity.
  - vm_compute. left. reflexivity.
  - left. reflexivity.
  - split; [exact Htested | split; [exact Hinvoked | apply Hres; reflexivity]].
Defined.

(** The disabled rule of the README on its own path. *)
Lemma disabled_rule_never_matches_witness :
  exists r,
    rule (CallConfig tempOff) = Ok r /\
    invoke_test r (GET "/disabled") = Ok false.
Proof.
  eexists. split; [reflexivity |].
  refine (proj2 (disabled_rule_never_matches (CallConfig tempOff) _ eq_refl eq_refl
                   (this_config tempOff) (GET "/disabled"))).
Defined.

(** The header trigger answers a [get] request and not a [POST] one. *)
Lemma custom_test_is_guarded_witness :
  exists r,
    rule_config mockMode = Ok r /\
    invoke_test r {| req_method := "get"; req_path := "/any"; req_query := [];
                     req_headers := [("x-mock-mode", "1")] |} = Ok true /\
    invoke_test r {| req_method := "POST"; req_path := "/any"; req_query := [];
                     req_headers := [("x-mock-mode", "1")] |} <> Ok true.
Proof.
  destruct (custom_test_is_guarded mockMode _ eq_refl) as (r & Hr & Hiff).
  exists r. split; [exact Hr |].
  injection Hr as <-. split.
  - apply Hiff. repeat split. left. reflexivity.
  - intros H. apply Hiff in H as (_ & Hin & _). vm_compute in Hin.
    destruct Hin as [Hin | []]. discriminate Hin.
Defined.

(** A config with a handler only is refused. *)
Lemma config_requires_path_or_test_witness :
  rule_config handlerOnly = Throw (Error "rule(config) requires either path or test").
Proof.
  exact (proj1 (config_requires_path_or_test handlerOnly eq_refl eq_refl)).
Defined.

(** Rule A still matches after [enabled = false], and the disabled rule of
    the README still does not after [enabled = true]. *)
Lemma enabled_is_captured_witness :
  invoke_test (set_enabled (Some false) ruleA) (GET "/x") = Ok true /\
  exists r,
    rule (CallConfig tempOff) = Ok r /\
    invoke_test (set_enabled (Some true) r) (GET "/disabled") = Ok false.
Proof.
  split.
  - rewrite (enabled_is_captured
               (CallSignature (OneMethod "GET") (PathString "/x")
                  (replies (JObj [("a", JNum 1)])) None)
               ruleA eq_refl (Some false) (GET "/x")).
    reflexivity.
  - eexists. split; [reflexivity |]. reflexivity.
Defined.

(** * Further properties of the rule builder *)

Section BuilderMore.

Lemma or_str_self (m : string) : or_str (Some m) "" = m.
Proof.
  unfold or_str, truthy. destruct (String.eqb m "") eqn:E; simpl; [| reflexivity].
  apply String.eqb_eq in E. now subst.
Qed.

(** The predicate of a rule that matches by path, in either form. *)
Lemma path_rule_test (c : RuleCall) (p : PathSpec) :
  path_driven c p ->
  exists r,
    rule c = Ok r /\
    enabled r = Some (not_false (call_enabled c)) /\
    methods r = map toUpperCase (declared_methods c) /\
    forall this req,
      test r this req =
      Ok (not_false (call_enabled c)
          && includes (methods r) (toUpperCase (req_method req))
          && path_matches p (req_path req)).
Proof.
  destruct c as [method path h options | cfg]; simpl.
  - intros ->. eexists. split; [reflexivity |]. simpl.
    split; [destruct options; reflexivity |].
    split; [destruct method; reflexivity |].
    intros this req.
    pose proof (or_str_self (req_method req)) as Hself.
    unfold or_str in Hself. rewrite Hself. clear Hself.
    replace (match options with Some o => opt_enabled o | None => None end)
      with (options ≫= opt_enabled) by (destruct options; reflexivity).
    destruct (not_false (options ≫= opt_enabled)); simpl; [| reflexivity].
    destruct (includes _ _); simpl; [| reflexivity].
    destruct p; reflexivity.
  - intros [Hp Ht]. unfold rule_config. rewrite Hp, Ht. simpl.
    eexists. split; [reflexivity |]. simpl.
    split; [reflexivity |]. split; [reflexivity |].
    intros this req.
    destruct (not_false (cfg_enabled cfg)); simpl; [| reflexivity].
    destruct (includes _ _); simpl; [| reflexivity].
    destruct p; reflexivity.
Qed.

End BuilderMore.

(** X1. A rule built to match by path (signature form, or config form
    with [path] and no [test]) is always built, and its predicate never
    throws: on every request it returns whether the rule is enabled, the
    upper-cased request method is in its method list, and the path
    specifier accepts the request path, whatever the receiver. *)
Theorem path_rule_predicate (c : RuleCall) (p : PathSpec) :
  path_driven c p ->
  exists r,
    rule c = Ok r /\
    forall this req,
      test r this req =
      Ok (not_false (call_enabled c)
          && includes (methods r) (toUpperCase (req_method req))
          && path_matches p (req_path req)).
Proof.
  intros H. destruct (path_rule_test c p H) as (r & Hr & _ & _ & Ht).
  exists r. split; assumption.
Qed.

(** X2. Matching by path is blind to letter case in methods, on both
    sides, and to everything in the request but its method and path: two
    calls of [rule] that differ only in the case of the declared methods
    build predicates that agree on any two requests whose paths are equal
    and whose methods are equal up to case. *)
Theorem method_case_is_ignored (c c' : RuleCall) (p : PathSpec)
    (r r' : OverrideRule) (req req' : Request) :
  path_driven c p ->
  path_driven c' p ->
  call_enabled c = call_enabled c' ->
  map toUpperCase (declared_methods c) = map toUpperCase (declared_methods c') ->
  rule c = Ok r ->
  rule c' = Ok r' ->
  toUpperCase (req_method req) = toUpperCase (req_method req') ->
  req_path req = req_path req' ->
  invoke_test r req = invoke_test r' req'.
Proof.
  intros Hc Hc' Hen Hms Hr Hr' Hm Hp.
  destruct (path_rule_test c p Hc) as (r0 & Hr0 & _ & Hm0 & Ht0).
  destruct (path_rule_test c' p Hc') as (r0' & Hr0' & _ & Hm0' & Ht0').
  rewrite Hr in Hr0. injection Hr0 as <-.
  rewrite Hr' in Hr0'. injection Hr0' as <-.
  unfold invoke_test. rewrite Ht0, Ht0', Hm0, Hm0', Hen, Hms, Hm, Hp. reflexivity.
Qed.

(** X3. The method list of a rule built by [rule] holds upper-case
    methods only, one for each declared method and in the same order, and
    it is empty in one case only: the signature form called with an empty
    array. *)
Theorem methods_of_built_rule (c : RuleCall) (r : OverrideRule) :
  rule c = Ok r ->
  methods r = map toUpperCase (declared_methods c) /\
  (forall m, In m (methods r) -> toUpperCase m = m) /\
  (methods r = [] <->
   exists path h options, c = CallSignature (ManyMethods []) path h options).
Proof.
  intros Hr.
  assert (methods r = map toUpperCase (declared_methods c)) as Hm.
  { destruct c as [method path h options | cfg]; simpl in Hr.
    - injection Hr as <-. destruct method; reflexivity.
    - apply rule_config_fields in Hr as (_ & -> & _). reflexivity. }
  split; [exact Hm |]. split.
  - intros m. rewrite Hm. apply map_toUpperCase_upper.
  - rewrite Hm. split.
    + intros Hnil. apply map_eq_nil in Hnil.
      destruct c as [[m | ms] path h options | cfg]; simpl in Hnil.
      * discriminate.
      * subst ms. eauto.
      * destruct (cfg_methods cfg) as [[| m ms] |]; discriminate.
    + intros (path & h & options & ->). reflexivity.
Qed.

(** The rule of the README with its method in lower case and in upper
    case. *)
Lemma method_case_is_ignored_witness :
  invoke_test ruleDefers (GET "/x") =
  invoke_test (rule_signature (OneMethod "GET") (PathString "/x") defers None)
              {| req_method := "get"; req_path := "/x";
                 req_query := [("a", "1")]; req_headers := [] |}.
Proof.
  apply (method_case_is_ignored
           (CallSignature (OneMethod "get") (PathString "/x") defers None)
           (CallSignature (OneMethod "GET") (PathString "/x") defers None)
           (PathString "/x"));
    reflexivity.
Defined.

(** The ping rule matches [get /__ping]. *)
Lemma path_rule_predicate_witness :
  exists r,
    rule (CallConfig ping) = Ok r /\
    test r (this_rule r) {| req_method := "get"; req_path := "/__ping";
                            req_query := []; req_headers := [] |} = Ok true.
Proof.
  destruct (path_rule_predicate (CallConfig ping) (PathString "/__ping"))
    as (r & Hr & Ht).
  - split; reflexivity.
  - exists r. split; [exact Hr |]. rewrite Ht.
    injection Hr as <-. reflexivity.
Defined.

(** The third rule of the scenarios has one method, in upper case. *)
Lemma methods_of_built_rule_witness :
  methods ruleC = ["GET"] /\ methods ruleC <> [].
Proof.
  destruct (methods_of_built_rule
              (CallSignature (OneMethod "GET") (PathString "/x")
                 (replies (JObj [("c", JNum 3)])) None)
              ruleC eq_refl) as (Hm & _ & Hnil).
  split; [exact Hm |].
  intros H. apply Hnil in H as (path & h & options & H). discriminate H.
Defined.

(** * Further properties of the dispatch loop *)

Section DispatchMore.

Variable metaMap_get : nat -> option OverrideRuleMeta.
Variable logId : nat.
Variable req : Request.

Local Abbreviation run := (dispatch metaMap_get logId req passthrough).
Local Abbreviation no_match := (fun r : OverrideRule => invoke_test r req = Ok false).

(** The handler that runs is that of a rule whose predicate returned
    [true]. *)
Lemma invoked_matched (rules : list OverrideRule) (i : nat) :
  In i (invoked (fst (run rules))) ->
  exists r,
    rules !! i = Some r /\
    invoke_test r req = Ok true /\
    (forall k rk, k < i -> rules !! k = Some rk -> invoke_test rk req = Ok false) /\
    fst (run rules) =
    (map TestCalled (seq 0 (S i)) ++ verdict metaMap_get logId req i r)%list.
Proof.
  intros Hin.
  destruct (dispatch_inv metaMap_get logId req rules)
    as [[_ Hrun] | (k & r & Hk & Hbefore & Hr & Hrun)];
    rewrite Hrun in Hin |- *; read_trace_in Hin.
  - destruct Hin.
  - destruct (invoke_test r req) as [[|] | e] eqn:Htest;
      simpl in Hin; try contradiction.
    destruct Hin as [<- | []]. exists r. auto.
Qed.

(** A rule built with [enabled: false] returns [false]. *)
Lemma built_disabled_test (c : RuleCall) (r : OverrideRule) :
  call_enabled c = Some false ->
  rule c = Ok r ->
  invoke_test r req = Ok false.
Proof.
  intros Hen Hr. unfold invoke_test.
  destruct c as [method path h options | cfg]; simpl in Hen, Hr.
  - injection Hr as <-. simpl.
    destruct options as [o |]; simpl in Hen; [| discriminate].
    rewrite Hen. reflexivity.
  - unfold rule_config in Hr. rewrite Hen in Hr. simpl in Hr.
    destruct (negb _ && negb _); [discriminate |].
    injection Hr as <-. simpl.
    destruct (cfg_test cfg); reflexivity.
Qed.


(** X5. The predicates are evaluated in registry order, from the first
    rule on and without gaps, each at most once; at most one handler is
    invoked, and it is that of the last rule whose predicate was
    evaluated. *)
Theorem scan_is_an_initial_segment (rules : list OverrideRule) :
  exists n,
    n <= length rules /\
    tested (fst (run rules)) = seq 0 n /\
    (invoked (fst (run rules)) = [] \/
     exists i, n = S i /\ invoked (fst (run rules)) = [i]).
Proof.
  destruct (dispatch_inv metaMap_get logId req rules)
    as [[_ ->] | (k & r & Hk & _ & _ & ->)]; read_trace.
  - exists (length rules). split; [lia |]. split; [| left]; reflexivity.
  - exists (S k). apply lookup_lt_Some in Hk. split; [lia |].
    split; [reflexivity |].
    destruct (invoke_test r req) as [[|] | e]; eauto.
Qed.

(** X6. The loop hands a request on without having invoked a handler only
    when the predicate of every rule returned [false]; it has then written
    nothing to [res]. *)
Theorem passthrough_means_no_match (rules : list OverrideRule) :
  In NextCalled (fst (run rules)) ->
  invoked (fst (run rules)) = [] ->
  Forall (fun r => invoke_test r req = Ok false) rules /\
  responses (fst (run rules)) = [] /\
  handler_writes (fst (run rules)) = [].
Proof.
  intros Hnext Hinv.
  destruct (dispatch_inv metaMap_get logId req rules)
    as [[Hall Hrun] | (k & r & _ & _ & Hr & Hrun)];
    rewrite Hrun in Hnext, Hinv |- *; cbn [fst] in Hnext |- *.
  - split; [exact Hall |]. read_trace. auto.
  - exfalso. read_trace_in Hinv.
    apply in_app_iff in Hnext as [Hnext | Hnext].
    + eapply next_not_in_tests. exact Hnext.
    + apply next_in_verdict in Hnext as [Htrue _].
      rewrite Htrue in Hinv. discriminate Hinv.
Qed.

(** X7. The rules after the one that ends the scan play no part: once the
    predicate of a rule returns [true] or throws, after predicates that
    all returned [false], the rest of the registry can be replaced by
    anything without changing what the middleware does. *)
Theorem later_rules_are_irrelevant (pre post post' : list OverrideRule)
    (r : OverrideRule) :
  Forall (fun r' => invoke_test r' req = Ok false) pre ->
  invoke_test r req <> Ok false ->
  run (pre ++ r :: post) = run (pre ++ r :: post').
Proof.
  intros Hpre Hr. unfold dispatch.
  rewrite !scan_stops by assumption. reflexivity.
Qed.

(** X8. A handler is invoked only after the response has been marked
    [_via = "override"] and [_matched = rule.name] and the match has been
    logged under the rule's name, or under ["override"] for a rule without
    a name; nothing but the predicate calls comes before. *)
Theorem match_is_marked_before_handler (rules : list OverrideRule) (i : nat)
    (ri : OverrideRule) :
  rules !! i = Some ri ->
  In i (invoked (fst (run rules))) ->
  exists after,
    fst (run rules) =
    (map TestCalled (seq 0 (S i))
     ++ [SetVia "override";
         SetMatched (name ri);
         LogRequestMatch logId (or_str (name ri) "override") (metaMap_get i);
         HandlerCalled i]
     ++ after)%list.
Proof.
  intros Hi Hin.
  destruct (invoked_matched rules i Hin) as (r & Hr & Htest & _ & ->).
  rewrite Hi in Hr. injection Hr as <-.
  unfold verdict. rewrite Htest. eexists. reflexivity.
Qed.

(** X9. A rule built with [enabled: false] is never served, wherever it
    stands in whatever registry: its handler is not invoked. *)
Theorem disabled_rule_is_never_served (rules : list OverrideRule) (i : nat)
    (c : RuleCall) (r : OverrideRule) :
  rules !! i = Some r ->
  rule c = Ok r ->
  call_enabled c = Some false ->
  ~ In i (invoked (fst (run rules))).
Proof.
  intros Hi Hr Hen Hin.
  destruct (invoked_matched rules i Hin) as (r' & Hr' & Htest & _).
  rewrite Hi in Hr'. injection Hr' as <-.
  rewrite (built_disabled_test c r Hen Hr) in Htest. discriminate Htest.
Qed.

End DispatchMore.


(** Rules A and B on a request for another path. *)
Lemma passthrough_means_no_match_witness :
  Forall (fun r => invoke_test r (POST "/x") = Ok false) [ruleA; ruleB].
Proof.
  refine (proj1 (passthrough_means_no_match no_meta 1 (POST "/x") [ruleA; ruleB] _ _)).
  - vm_compute. right. right. left. reflexivity.
  - reflexivity.
Defined.

(** After the disabled rule, rule A ends the scan: rule B or rule C behind
    it makes no difference. *)
Lemma later_rules_are_irrelevant_witness :
  dispatch no_meta 1 (GET "/x") passthrough [ruleOff; ruleA; ruleB] =
  dispatch no_meta 1 (GET "/x") passthrough [ruleOff; ruleA; ruleC; ruleFlaky].
Proof.
  apply (later_rules_are_irrelevant no_meta 1 (GET "/x") [ruleOff] [ruleB]
           [ruleC; ruleFlaky] ruleA).
  - repeat constructor.
  - discriminate.
Defined.

(** Rule A behind the disabled rule. *)
Lemma match_is_marked_before_handler_witness :
  exists after,
    fst (dispatch no_meta 7 (GET "/x") passthrough [ruleOff; ruleA]) =
    ([TestCalled 0; TestCalled 1;
      SetVia "override"; SetMatched (Some "/x"); LogRequestMatch 7 "/x" None;
      HandlerCalled 1] ++ after)%list.
Proof.
  destruct (match_is_marked_before_handler no_meta 7 (GET "/x") [ruleOff; ruleA] 1 ruleA)
    as [after H].
  - reflexivity.
  - vm_compute. left. reflexivity.
  - exists after. exact H.
Defined.

(** The disabled rule in front of rule A. *)
Lemma disabled_rule_is_never_served_witness :
  ~ In 0 (invoked (fst (dispatch no_meta 1 (GET "/x") passthrough [ruleOff; ruleA]))).
Proof.
  apply (disabled_rule_is_never_served no_meta 1 (GET "/x") [ruleOff; ruleA] 0
           (CallSignature (OneMethod "GET") (PathString "/x")
              (replies (JObj [("off", JBool true)]))
              (Some {| opt_name := None; opt_enabled := Some false |}))
           ruleOff);
    reflexivity.
Defined.

(** * Further properties of the rule loader *)

Section LoaderMore.

(** [finalize], case by case. *)
Lemma finalize_cases (rel : string) (st : Startup) (c : Collected) :
  (st_heap st !! c_rule c = None /\ finalize rel st c = st) \/
  exists o r heap,
    st_heap st !! c_rule c = Some o /\
    finalize rel st c =
    {| st_heap := heap;
       st_metaMap := <[r := provenance rel (c_exportName c)]> (st_metaMap st);
       st_overrides := (st_overrides st ++ [r])%list |} /\
    ((heap = st_heap st /\ r = c_rule c /\
      (truthy_opt (c_exportName c) = false \/ truthy_opt (name (obj_rule o)) = true))
     \/
     (exists key,
        c_exportName c = Some key /\ truthy key = true /\
        truthy_opt (name (obj_rule o)) = false /\
        ((obj_sealed o = false /\ r = c_rule c /\
          heap = <[c_rule c := named key o]> (st_heap st))
         \/
         (obj_sealed o = true /\ r = length (st_heap st) /\
          heap = (st_heap st ++ [named key o])%list)))).
Proof.
  unfold finalize, provenance.
  destruct (st_heap st !! c_rule c) as [o |] eqn:Ho; [right | left; auto].
  exists o.
  destruct (c_exportName c) as [key |] eqn:Hkey; simpl.
  - destruct (truthy key) eqn:Htk; simpl.
    + destruct (truthy_opt (name (obj_rule o))) eqn:Hname; simpl.
      * eexists _, _. split; [reflexivity |]. split; [reflexivity |].
        left. auto.
      * destruct (obj_sealed o) eqn:Hsealed.
        -- eexists _, _. split; [reflexivity |]. split; [reflexivity |].
           right. exists key. do 3 (split; [first [reflexivity | assumption] |]).
           right. do 2 (split; [first [reflexivity | assumption] |]).
           replace (length (st_heap st)) with (length (st_heap st) + 0) at 1 by lia.
           rewrite alter_app_r. reflexivity.
        -- eexists _, _. split; [reflexivity |]. split; [reflexivity |].
           right. exists key. do 3 (split; [first [reflexivity | assumption] |]).
           left. do 2 (split; [first [reflexivity | assumption] |]).
           apply list_eq. intros i.
           destruct (decide (i = c_rule c)) as [-> | Hne].
           ++ rewrite list_lookup_alter_eq, Ho.
              rewrite list_lookup_insert_eq by (eapply lookup_lt_Some; eassumption).
              unfold named. simpl. rewrite Hsealed. reflexivity.
           ++ rewrite list_lookup_alter_ne, list_lookup_insert_ne by congruence.
              reflexivity.
    + eexists _, _. split; [reflexivity |]. split; [reflexivity |]. left. auto.
  - eexists _, _. split; [reflexivity |]. split; [reflexivity |]. left. auto.
Qed.

Lemma kept_or_named_trans (o1 o2 o3 : HeapObj) :
  kept_or_named o1 o2 -> kept_or_named o2 o3 -> kept_or_named o1 o3.
Proof.
  intros [-> | (key & Hk & Hn & Hs & ->)] H23; [exact H23 |].
  destruct H23 as [-> | (key' & _ & Hn' & _)].
  - right. exists key. auto.
  - simpl in Hn'. rewrite Hk in Hn'. discriminate Hn'.
Qed.

Lemma extends_refl (st : Startup) : extends st st.
Proof.
  split; [exists []; now rewrite app_nil_r |].
  split; [| auto]. intros a o Ho. exists o. split; [exact Ho | left; reflexivity].
Qed.

Lemma extends_trans (st1 st2 st3 : Startup) :
  extends st1 st2 -> extends st2 st3 -> extends st1 st3.
Proof.
  intros ([m1 H1] & Hh1 & Hm1) ([m2 H2] & Hh2 & Hm2).
  split; [| split].
  - exists (m1 ++ m2)%list. rewrite H2, H1, app_assoc. reflexivity.
  - intros a o Ho. destruct (Hh1 a o Ho) as (o2 & Ho2 & K12).
    destruct (Hh2 a o2 Ho2) as (o3 & Ho3 & K23).
    exists o3. split; [exact Ho3 | eapply kept_or_named_trans; eassumption].
  - auto.
Qed.

Lemma finalize_extends (rel : string) (st : Startup) (c : Collected) :
  extends st (finalize rel st c).
Proof.
  destruct (finalize_cases rel st c)
    as [[_ ->] | (o & r & heap & Ho & -> & Hcase)]; [apply extends_refl |].
  split; [| split]; simpl.
  - eauto.
  - intros a oa Hoa.
    destruct Hcase as [(-> & _ & _) | (key & Hkey & Htk & Hname & Hcase)].
    + exists oa. split; [exact Hoa | left; reflexivity].
    + destruct Hcase as [(Hs & _ & ->) | (_ & _ & ->)].
      * destruct (decide (a = c_rule c)) as [-> | Hne].
        -- rewrite Ho in Hoa. injection Hoa as <-.
           exists (named key o). split.
           ++ apply list_lookup_insert_eq. eapply lookup_lt_Some. exact Ho.
           ++ right. exists key. auto.
        -- exists oa. rewrite list_lookup_insert_ne by congruence.
           split; [exact Hoa | left; reflexivity].
      * exists oa. split; [apply lookup_app_l_Some; exact Hoa | left; reflexivity].
  - intros a Ha. destruct (decide (r = a)) as [-> | Hne].
    + rewrite lookup_insert_eq. eauto.
    + rewrite lookup_insert_ne by exact Hne. exact Ha.
Qed.

Lemma finalize_registered (files : list string) (rel : string) (st : Startup)
    (c : Collected) :
  In rel files -> registered files st -> registered files (finalize rel st c).
Proof.
  intros Hrel Hreg.
  pose proof (finalize_extends rel st c) as (_ & Hheap & _).
  destruct (finalize_cases rel st c)
    as [[_ ->] | (o & r & heap & Ho & Heq & Hcase)]; [exact Hreg |].
  rewrite Heq in Hheap |- *. simpl in Hheap.
  intros a Ha. simpl in Ha |- *.
  assert (exists o', heap !! r = Some o') as Hr.
  { destruct Hcase as [(-> & -> & _) | (key & _ & _ & _ & Hcase)]; [eauto |].
    destruct Hcase as [(_ & -> & ->) | (_ & -> & ->)].
    - exists (named key o). apply list_lookup_insert_eq.
      eapply lookup_lt_Some. exact Ho.
    - exists (named key o). apply list_lookup_middle. reflexivity. }
  destruct (decide (r = a)) as [-> | Hne].
  - split; [exact Hr |]. exists rel, (c_exportName c).
    rewrite lookup_insert_eq. auto.
  - apply in_app_iff in Ha as [Ha | [Ha | []]]; [| congruence].
    destruct (Hreg a Ha) as ((oa & Hoa) & Hmeta).
    split.
    + destruct (Hheap a oa Hoa) as (o' & Ho' & _). eauto.
    + rewrite lookup_insert_ne by exact Hne. exact Hmeta.
Qed.

Lemma fold_finalize_extends (rel : string) (cs : list Collected) (st : Startup) :
  extends st (fold_left (finalize rel) cs st).
Proof.
  revert st. induction cs as [| c cs IH]; intros st; simpl; [apply extends_refl |].
  eapply extends_trans; [apply finalize_extends | apply IH].
Qed.

Lemma fold_finalize_registered (files : list string) (rel : string)
    (cs : list Collected) (st : Startup) :
  In rel files -> registered files st ->
  registered files (fold_left (finalize rel) cs st).
Proof.
  intros Hrel. revert st. induction cs as [| c cs IH]; intros st Hreg; simpl;
    [exact Hreg |].
  apply IH. apply finalize_registered; assumption.
Qed.

Lemma load_module_extends (st : Startup) (entry : string * option ModuleNS) :
  extends st (load_module st entry).
Proof.
  destruct entry as [rel [ns |]]; simpl;
    [apply fold_finalize_extends | apply extends_refl].
Qed.

Lemma fold_load_module_extends (entries : list (string * option ModuleNS))
    (st : Startup) :
  extends st (fold_left load_module entries st).
Proof.
  revert st. induction entries as [| e entries IH]; intros st; simpl;
    [apply extends_refl |].
  eapply extends_trans; [apply load_module_extends | apply IH].
Qed.

Lemma fold_load_module_registered (files : list string)
    (entries : list (string * option ModuleNS)) (st : Startup) :
  (forall e, In e entries -> In (fst e) files) ->
  registered files st ->
  registered files (fold_left load_module entries st).
Proof.
  revert st. induction entries as [| [rel m] entries IH]; intros st Hin Hreg; simpl;
    [exact Hreg |].
  apply IH; [intros e He; apply Hin; right; exact He |].
  destruct m as [ns |]; simpl; [| exact Hreg].
  apply fold_finalize_registered; [| exact Hreg].
  apply (Hin (rel, Some ns)). left. reflexivity.
Qed.

Lemma load_registered (heap : list HeapObj) (entries : list (string * option ModuleNS)) :
  registered (map fst entries) (load heap entries).
Proof.
  apply fold_load_module_registered.
  - intros e He. apply in_map. exact He.
  - intros a [].
Qed.

(** With every address live, a list read through the store lines up with
    the list of addresses. *)
Lemma omap_lookup_total {A B : Type} (f : A -> option B) (l : list A) (i : nat) :
  (forall x, In x l -> is_Some (f x)) ->
  omap f l !! i = l !! i ≫= f.
Proof.
  revert i. induction l as [| x l IH]; intros i Hall; [reflexivity |].
  destruct (Hall x (or_introl eq_refl)) as [y Hy].
  simpl. rewrite Hy.
  destruct i as [| i]; simpl; [now rewrite Hy |].
  apply IH. intros z Hz. apply Hall. right. exact Hz.
Qed.

Lemma omap_length_total {A B : Type} (f : A -> option B) (l : list A) :
  (forall x, In x l -> is_Some (f x)) ->
  length (omap f l) = length l.
Proof.
  induction l as [| x l IH]; intros Hall; [reflexivity |].
  destruct (Hall x (or_introl eq_refl)) as [y Hy].
  simpl. rewrite Hy. simpl. f_equal.
  apply IH. intros z Hz. apply Hall. right. exact Hz.
Qed.

Lemma provenance_source (rel : string) (e : option string) :
  meta_id (provenance rel e) = meta_source (provenance rel e).
Proof. reflexivity. Qed.

End LoaderMore.

Section LoaderNames.

Lemma first_truthy_app (l l' : list (option string)) :
  first_truthy (l ++ l') =
  match first_truthy l with
  | Some x => Some x
  | None => first_truthy l'
  end.
Proof.
  induction l as [| x l IH]; simpl; [destruct (first_truthy l'); reflexivity |].
  destruct x as [s |]; simpl; [| exact IH].
  destruct (truthy s); [reflexivity | exact IH].
Qed.

(** The name [rule] gives is the first truthy one it is offered. *)
Lemma built_name (c : RuleCall) (r : OverrideRule) :
  rule c = Ok r ->
  or_opt (name r) None = first_truthy (builder_names c).
Proof.
  destruct c as [method path h options | cfg]; simpl.
  - intros [= <-]. simpl. unfold or_opt. simpl.
    destruct (truthy (path_toString path)); reflexivity.
  - unfold rule_config. destruct (negb _ && negb _); [discriminate |].
    intros [= <-]. simpl.
    destruct (cfg_name cfg) as [n |]; [destruct (truthy n) eqn:Hn |];
      (destruct (cfg_path cfg) as [[s | re] |];
       [destruct (truthy s) eqn:Hs | destruct (truthy (regexp_toString re)) eqn:Hs |]);
      unfold or_opt, truthy_opt; simpl;
      repeat (rewrite ?Hn, ?Hs; simpl); reflexivity.
Qed.

End LoaderNames.

(** X10. Modules register in discovery order and never disturb what is
    already registered: the registry after loading the first entries is
    the beginning of the registry after loading them all; and a module
    whose import throws is skipped as if it were not there. *)
Theorem load_keeps_discovery_order (heap : list HeapObj)
    (es1 es2 : list (string * option ModuleNS)) (rel : string) :
  (exists more,
     st_overrides (load heap (es1 ++ es2)) =
     (st_overrides (load heap es1) ++ more)%list) /\
  load heap (es1 ++ (rel, None) :: es2) = load heap (es1 ++ es2).
Proof.
  unfold load. rewrite !fold_left_app. split; [| reflexivity].
  apply fold_load_module_extends.
Qed.

(** X11. After loading, no entry of [overrides] dangles and none lacks
    metadata: each position of the registry holds a rule object, and
    [metaMap] has for it the metadata of an export of one of the loaded
    files, whose [id] is the file name followed by [:export] when there is
    an export name. *)
Theorem registered_rules_have_provenance (heap : list HeapObj)
    (entries : list (string * option ModuleNS)) :
  length (registry (load heap entries)) = length (st_overrides (load heap entries)) /\
  forall i a,
    st_overrides (load heap entries) !! i = Some a ->
    exists o rel e,
      st_heap (load heap entries) !! a = Some o /\
      registry (load heap entries) !! i = Some (obj_rule o) /\
      In rel (map fst entries) /\
      registry_meta (load heap entries) i = Some (provenance rel e) /\
      meta_id (provenance rel e) = meta_source (provenance rel e).
Proof.
  pose proof (load_registered heap entries) as Hreg.
  set (st := load heap entries) in *.
  assert (forall a, In a (st_overrides st) ->
                    is_Some (obj_rule <$> st_heap st !! a)) as Hlive.
  { intros a Ha. destruct (Hreg a Ha) as ((o & ->) & _). simpl. eauto. }
  split.
  - unfold registry. apply omap_length_total. exact Hlive.
  - intros i a Hi.
    assert (In a (st_overrides st)) as Ha.
    { apply list_elem_of_In. eapply list_elem_of_lookup_2. exact Hi. }
    destruct (Hreg a Ha) as ((o & Ho) & (rel & e & Hrel & Hmeta)).
    exists o, rel, e. split; [exact Ho |]. split.
    + unfold registry. rewrite omap_lookup_total by exact Hlive.
      rewrite Hi. simpl. rewrite Ho. reflexivity.
    + split; [exact Hrel |]. split; [| reflexivity].
      unfold registry_meta. rewrite Hi. simpl. exact Hmeta.
Qed.

(** X12. Loading never removes a rule object and never touches its
    predicate, handler, methods or [enabled] flag. All it can do to an
    object is give it, once, the name of an export, and only if the object
    had no truthy name and is extensible. *)
Theorem loader_only_names (heap : list HeapObj)
    (entries : list (string * option ModuleNS)) (a : addr) (o : HeapObj) :
  heap !! a = Some o ->
  exists o',
    st_heap (load heap entries) !! a = Some o' /\
    test (obj_rule o') = test (obj_rule o) /\
    handler (obj_rule o') = handler (obj_rule o) /\
    methods (obj_rule o') = methods (obj_rule o) /\
    enabled (obj_rule o') = enabled (obj_rule o) /\
    (o' = o \/
     exists key,
       truthy key = true /\
       truthy_opt (name (obj_rule o)) = false /\
       obj_sealed o = false /\
       name (obj_rule o') = Some key).
Proof.
  intros Ho.
  destruct (fold_load_module_extends entries
              {| st_heap := heap; st_metaMap := ∅; st_overrides := [] |})
    as (_ & Hheap & _).
  destruct (Hheap a o Ho) as (o' & Ho' & Hk).
  exists o'. split; [exact Ho' |].
  destruct Hk as [-> | (key & Hkey & Hname & Hsealed & ->)].
  - repeat split; try reflexivity. left. reflexivity.
  - repeat split; try reflexivity. right. exists key. auto.
Qed.

(** X13. A rule object that is frozen or not extensible is left as it is
    when it needs the name of its export: the loader registers a copy that
    bears the name, at a fresh address, and stores the metadata for the
    copy. *)
Theorem frozen_rule_is_copied (rel key : string) (st : Startup) (a : addr)
    (o : HeapObj) :
  st_heap st !! a = Some o ->
  obj_sealed o = true ->
  truthy_opt (name (obj_rule o)) = false ->
  truthy key = true ->
  st_heap (finalize rel st {| c_rule := a; c_exportName := Some key |}) =
    (st_heap st ++ [named key o])%list /\
  st_overrides (finalize rel st {| c_rule := a; c_exportName := Some key |}) =
    (st_overrides st ++ [length (st_heap st)])%list /\
  st_metaMap (finalize rel st {| c_rule := a; c_exportName := Some key |}) =
    <[length (st_heap st) := provenance rel (Some key)]> (st_metaMap st) /\
  st_heap (finalize rel st {| c_rule := a; c_exportName := Some key |}) !! a = Some o.
Proof.
  intros Ho Hsealed Hname Hkey.
  destruct (finalize_cases rel st {| c_rule := a; c_exportName := Some key |})
    as [[Hnone _] | (o0 & r & heap & Ho0 & -> & Hcase)]; simpl in *.
  - congruence.
  - rewrite Ho in Ho0. injection Ho0 as <-.
    destruct Hcase as [(_ & _ & [H | H]) | (key' & [= <-] & _ & _ & Hcase)].
    + rewrite Hkey in H. discriminate H.
    + congruence.
    + destruct Hcase as [(H & _) | (_ & -> & ->)]; [congruence |].
      repeat split. apply lookup_app_l_Some. exact Ho.
Qed.


(** X15. The name under which a rule built by [rule] and exported under
    [key] is listed and logged is the first truthy one of: the [name] of
    the config, the string form of the path, the export name. *)
Theorem display_name_precedence (c : RuleCall) (r : OverrideRule)
    (rel key : string) (st : Startup) (a : addr) :
  rule c = Ok r ->
  st_heap st !! a = Some {| obj_rule := r; obj_sealed := false |} ->
  exists o',
    st_heap (finalize rel st {| c_rule := a; c_exportName := Some key |}) !! a = Some o' /\
    or_opt (name (obj_rule o')) None = first_truthy (builder_names c ++ [Some key]).
Proof.
  intros Hr Ho.
  pose proof (built_name c r Hr) as Hbuilt.
  rewrite first_truthy_app, <- Hbuilt.
  destruct (finalize_cases rel st {| c_rule := a; c_exportName := Some key |})
    as [[Hnone _] | (o0 & r0 & heap & Ho0 & -> & Hcase)]; simpl in *;
    [congruence |].
  rewrite Ho in Ho0. injection Ho0 as <-. simpl in Hcase.
  destruct Hcase as [(-> & _ & Hwhy) | (key' & [= <-] & Hk & Hn & Hcase)].
  - eexists. split; [exact Ho |]. simpl.
    unfold or_opt, truthy_opt in *.
    destruct (name r) as [s |]; [destruct (truthy s) eqn:Hs |]; simpl;
      try reflexivity;
      destruct Hwhy as [Hkey | Hname]; try discriminate;
      rewrite Hkey; reflexivity.
  - destruct Hcase as [(_ & _ & ->) | ([=] & _)].
    exists (named key {| obj_rule := r; obj_sealed := false |}). split.
    + apply list_lookup_insert_eq. eapply lookup_lt_Some. exact Ho.
    + simpl. unfold or_opt, truthy_opt in *.
      destruct (name r) as [s |]; [destruct (truthy s) eqn:Hs |]; simpl;
        try discriminate; rewrite Hk; reflexivity.
Qed.

(** The demo module, loaded. *)
Lemma registered_rules_have_provenance_witness :
  exists o rel e,
    st_heap (load demo_heap demo_entries) !! 0 = Some o /\
    registry (load demo_heap demo_entries) !! 0 = Some (obj_rule o) /\
    In rel (map fst demo_entries) /\
    registry_meta (load demo_heap demo_entries) 0 = Some (provenance rel e).
Proof.
  destruct (proj2 (registered_rules_have_provenance demo_heap demo_entries) 0 0 eq_refl)
    as (o & rel & e & H1 & H2 & H3 & H4 & _).
  exists o, rel, e. auto.
Defined.

(** The demo rule keeps its predicate through loading. *)
Lemma loader_only_names_witness :
  exists o',
    st_heap (load demo_heap demo_entries) !! 0 = Some o' /\
    test (obj_rule o') = test DemoHello.
Proof.
  destruct (loader_only_names demo_heap demo_entries 0
              {| obj_rule := DemoHello; obj_sealed := false |} eq_refl)
    as (o' & Ho' & Ht & _).
  exists o'. split; [exact Ho' | exact Ht].
Defined.

(** The frozen rule exported as [Frozen]. *)
Lemma frozen_rule_is_copied_witness :
  st_overrides (finalize "plain.ts" frozen_start
                  {| c_rule := 0; c_exportName := Some "Frozen" |}) = [1] /\
  st_heap (finalize "plain.ts" frozen_start
             {| c_rule := 0; c_exportName := Some "Frozen" |}) !! 0 = Some frozenRule.
Proof.
  destruct (frozen_rule_is_copied "plain.ts" "Frozen" frozen_start 0 frozenRule
              eq_refl eq_refl eq_refl eq_refl) as (_ & Hov & _ & Hold).
  split; [exact Hov | exact Hold].
Defined.


(** The demo rule: the string form of the path comes before the export
    name. *)
Lemma display_name_precedence_witness :
  exists o',
    st_heap (finalize "_demo.ts" demo_start
               {| c_rule := 0; c_exportName := Some "DemoHello" |}) !! 0 = Some o' /\
    or_opt (name (obj_rule o')) None = Some "/__demo/hello".
Proof.
  destruct (display_name_precedence
              (CallSignature (OneMethod "GET") (PathString "/__demo/hello")
                 (replies (JObj [("message", JStr "hello");
                                 ("ts", JStr "1970-01-01T00:00:00.000Z")]))
                 None)
              DemoHello "_demo.ts" "DemoHello" demo_start 0 eq_refl eq_refl)
    as (o' & Ho' & Hname).
  exists o'. split; [exact Ho' | exact Hname].
Defined.

(** * Properties of the console output *)

(** X16. The [Overrides:] listing printed at startup has one line for
    each entry of [overrides], in order; the line shows the rule's name or
    [<unnamed>], [(off)] exactly when the object's [enabled] field is
    [false], and, as its source, the [id] stored in [metaMap]: the
    placeholder [?] never appears for a loaded rule. *)
Theorem listing_shows_provenance (heap : list HeapObj)
    (entries : list (string * option ModuleNS)) :
  length (listing (load heap entries)) = length (st_overrides (load heap entries)) /\
  forall i a,
    st_overrides (load heap entries) !! i = Some a ->
    exists o rel e,
      st_heap (load heap entries) !! a = Some o /\
      In rel (map fst entries) /\
      st_metaMap (load heap entries) !! a = Some (provenance rel e) /\
      listing (load heap entries) !! i =
      Some ("  - " ++ or_str (name (obj_rule o)) "<unnamed>" ++
            match enabled (obj_rule o) with
            | Some false => " (off)"
            | _ => ""
            end ++ " :: " ++ meta_id (provenance rel e)).
Proof.
  pose proof (load_registered heap entries) as Hreg.
  set (st := load heap entries) in *.
  assert (forall a, In a (st_overrides st) ->
            is_Some ((fun o => listing_line st a (obj_rule o)) <$> st_heap st !! a))
    as Hlive.
  { intros a Ha. destruct (Hreg a Ha) as ((o & ->) & _). simpl. eauto. }
  split.
  - unfold listing. apply omap_length_total. exact Hlive.
  - intros i a Hi.
    assert (In a (st_overrides st)) as Ha.
    { apply list_elem_of_In. eapply list_elem_of_lookup_2. exact Hi. }
    destruct (Hreg a Ha) as ((o & Ho) & (rel & e & Hrel & Hmeta)).
    exists o, rel, e. do 3 (split; [assumption |]).
    unfold listing. rewrite omap_lookup_total by exact Hlive.
    rewrite Hi. simpl. rewrite Ho. simpl.
    unfold listing_line. rewrite Hmeta. reflexivity.
Qed.

(** The listing of the demo module. *)
Lemma listing_shows_provenance_witness :
  listing (load demo_heap demo_entries) !! 0 =
  Some "  - /__demo/hello :: _demo.ts:DemoHello".
Proof.
  destruct (proj2 (listing_shows_provenance demo_heap demo_entries) 0 0 eq_refl)
    as (o & rel & e & Ho & _ & Hmeta & Hline).
  rewrite Hline. vm_compute in Ho, Hmeta.
  injection Ho as <-. injection Hmeta as <- <-. reflexivity.
Defined.



(** * Properties of the CORS allow-list *)

Section CorsFacts.

Lemma str_app_cons (c : ascii) (a b : string) : String c a ++ b = String c (a ++ b).
Proof. reflexivity. Qed.

Lemma str_app_nil_l (s : string) : "" ++ s = s.
Proof. reflexivity. Qed.

Lemma str_app_nil_r (s : string) : s ++ "" = s.
Proof.
  induction s as [| c s IH]; [reflexivity |]. rewrite str_app_cons, IH. reflexivity.
Qed.

Lemma str_app_assoc (a b c : string) : (a ++ b) ++ c = a ++ (b ++ c).
Proof.
  induction a as [| x a IH]; [reflexivity |].
  rewrite !str_app_cons, IH. reflexivity.
Qed.

Lemma reverse_onto_app (acc s : string) :
  reverse_onto acc s = reverse_onto "" s ++ acc.
Proof.
  revert acc. induction s as [| c s IH]; intros acc; simpl; [reflexivity |].
  rewrite (IH (String c acc)), (IH (String c "")), str_app_assoc. reflexivity.
Qed.

Lemma reverse_onto_reverse (acc acc' s : string) :
  reverse_onto acc (reverse_onto acc' s) = reverse_onto (s ++ acc) acc'.
Proof.
  revert acc'. induction s as [| c s IH]; intros acc'; simpl; [reflexivity |].
  rewrite IH. reflexivity.
Qed.

Lemma reverse_involutive (s : string) : reverse_onto "" (reverse_onto "" s) = s.
Proof. rewrite reverse_onto_reverse. simpl. apply str_app_nil_r. Qed.

Lemma reverse_app (a b : string) :
  reverse_onto "" (a ++ b) = reverse_onto "" b ++ reverse_onto "" a.
Proof.
  assert (forall acc, reverse_onto acc (a ++ b) = reverse_onto (reverse_onto acc a) b) as H.
  { induction a as [| c a IH]; intros acc; [reflexivity |].
    rewrite str_app_cons. simpl. apply IH. }
  rewrite H. apply reverse_onto_app.
Qed.

(** Induction on the length of a string. *)
Lemma string_length_ind (P : string -> Prop) :
  (forall s, (forall t, String.length t < String.length s -> P t) -> P s) ->
  forall s, P s.
Proof.
  intros step s.
  remember (String.length s) as n eqn:Hn. revert s Hn.
  induction n as [n IH] using lt_wf_ind. intros s ->.
  apply step. intros t Hlt. exact (IH _ Hlt t eq_refl).
Qed.

Section Strip.

Variable w1 : ascii -> bool.
Variable w2 : ascii -> ascii -> bool.
Variable w3 : ascii -> ascii -> ascii -> bool.

Lemma strip_length (s : string) :
  String.length (strip w1 w2 w3 s) <= String.length s.
Proof.
  induction s as [s IH] using string_length_ind.
  destruct s as [| a [| b [| c s3]]]; simpl.
  - lia.
  - destruct (w1 a); simpl; lia.
  - destruct (w1 a).
    + specialize (IH (String b "")). simpl in IH. lia.
    + destruct (w2 a b); simpl; lia.
  - destruct (w1 a).
    + specialize (IH (String b (String c s3))). simpl in IH. lia.
    + destruct (w2 a b).
      * specialize (IH (String c s3)). simpl in IH. lia.
      * destruct (w3 a b c); [| simpl; lia].
        specialize (IH s3). simpl in IH. lia.
Qed.

Lemma strip_idem (s : string) :
  strip w1 w2 w3 (strip w1 w2 w3 s) = strip w1 w2 w3 s.
Proof.
  induction s as [s IH] using string_length_ind.
  destruct s as [| a [| b [| c s3]]]; simpl.
  - reflexivity.
  - destruct (w1 a) eqn:E1; [reflexivity |]. simpl. rewrite E1. reflexivity.
  - destruct (w1 a) eqn:E1.
    + apply (IH (String b "")). simpl. lia.
    + destruct (w2 a b) eqn:E2; [reflexivity |]. simpl. rewrite E1, E2. reflexivity.
  - destruct (w1 a) eqn:E1.
    + apply (IH (String b (String c s3))). simpl. lia.
    + destruct (w2 a b) eqn:E2.
      * apply (IH (String c s3)). simpl. lia.
      * destruct (w3 a b c) eqn:E3.
        -- apply (IH s3). simpl. lia.
        -- simpl. rewrite E1, E2, E3. reflexivity.
Qed.

(** [strip] leaves an end of the string. *)
Lemma strip_split (s : string) : exists sp, s = sp ++ strip w1 w2 w3 s.
Proof.
  induction s as [s IH] using string_length_ind.
  destruct s as [| a [| b [| c s3]]]; simpl.
  - exists "". reflexivity.
  - destruct (w1 a); [exists (String a "") | exists ""]; reflexivity.
  - destruct (w1 a).
    + destruct (IH (String b "")) as [sp Hsp]; [simpl; lia |].
      exists (String a sp). rewrite str_app_cons. f_equal. exact Hsp.
    + destruct (w2 a b); [exists (String a (String b "")) | exists ""]; reflexivity.
  - destruct (w1 a).
    + destruct (IH (String b (String c s3))) as [sp Hsp]; [simpl; lia |].
      exists (String a sp). rewrite str_app_cons. f_equal. exact Hsp.
    + destruct (w2 a b).
      * destruct (IH (String c s3)) as [sp Hsp]; [simpl; lia |].
        exists (String a (String b sp)). rewrite !str_app_cons. do 2 f_equal. exact Hsp.
      * destruct (w3 a b c); [| exists ""; reflexivity].
        destruct (IH s3) as [sp Hsp]; [simpl; lia |].
        exists (String a (String b (String c sp))).
        rewrite !str_app_cons. do 3 f_equal. exact Hsp.
Qed.

Lemma strip_blank (s : string) :
  all_chars w1 s = true -> strip w1 w2 w3 s = "".
Proof.
  induction s as [| c s IH]; simpl; [reflexivity |].
  intros H. apply andb_prop in H as [-> H]. apply IH. exact H.
Qed.

Lemma strip_cons (a : ascii) (s1 : string) :
  strip w1 w2 w3 (String a s1) =
  if w1 a then strip w1 w2 w3 s1
  else
    match s1 with
    | String b s2 =>
        if w2 a b then strip w1 w2 w3 s2
        else
          match s2 with
          | String c s3 => if w3 a b c then strip w1 w2 w3 s3 else String a s1
          | EmptyString => String a s1
          end
    | EmptyString => String a s1
    end.
Proof. reflexivity. Qed.

(** What [strip] removes nothing from has no such character in front,
    and neither has any part of it taken from the front. *)
Lemma strip_fixed_app_l (a b : string) :
  a <> "" ->
  strip w1 w2 w3 (a ++ b) = a ++ b ->
  strip w1 w2 w3 a = a.
Proof.
  assert (forall t u, strip w1 w2 w3 t = u ->
                      String.length t < String.length u -> False) as Hshort.
  { intros t u <- Hlt. pose proof (strip_length t). lia. }
  destruct a as [| x [| y [| z a3]]]; [congruence | | |]; intros _;
    rewrite ?str_app_cons, ?str_app_nil_l; intros H;
    rewrite strip_cons in H; cbv beta iota in H; rewrite strip_cons; cbv beta iota;
    destruct (w1 x) eqn:E1;
    try (exfalso; apply (Hshort _ _ H); simpl; lia);
    try reflexivity;
    destruct (w2 x y) eqn:E2;
    try (exfalso; apply (Hshort _ _ H); simpl; lia);
    try reflexivity;
    destruct (w3 x y z) eqn:E3;
    try (exfalso; apply (Hshort _ _ H); simpl; lia);
    reflexivity.
Qed.

End Strip.

Lemma trimStart_idem (s : string) : trimStart (trimStart s) = trimStart s.
Proof. apply strip_idem. Qed.

Lemma trimStart_blank (s : string) :
  all_chars is_space s = true -> trimStart s = "".
Proof. apply strip_blank. Qed.

Lemma trim_blank (s : string) : all_chars is_space s = true -> trim s = "".
Proof. intros H. unfold trim. rewrite (trimStart_blank s H). reflexivity. Qed.

Lemma trimEnd_no_lead (t : string) :
  trimStart t = t -> trimStart (trimEnd t) = trimEnd t.
Proof.
  intros Ht. unfold trimEnd.
  set (back := strip is_space (fun b a => is_space2 a b) (fun c b a => is_space3 a b c)).
  destruct (strip_split is_space (fun b a => is_space2 a b)
              (fun c b a => is_space3 a b c) (reverse_onto "" t)) as (sp & Hsplit).
  fold back in Hsplit.
  set (u := back (reverse_onto "" t)) in *.
  destruct (reverse_onto "" u) as [| c w] eqn:Hu; [reflexivity |].
  rewrite <- Hu. unfold trimStart.
  apply (strip_fixed_app_l _ _ _ _ (reverse_onto "" sp)); [rewrite Hu; discriminate |].
  rewrite <- reverse_app, <- Hsplit, reverse_involutive. exact Ht.
Qed.

Lemma trimEnd_idem (s : string) : trimEnd (trimEnd s) = trimEnd s.
Proof. unfold trimEnd. rewrite reverse_involutive, strip_idem. reflexivity. Qed.

Lemma trim_idem (s : string) : trim (trim s) = trim s.
Proof.
  unfold trim.
  rewrite (trimEnd_no_lead (trimStart s) (trimStart_idem s)).
  apply trimEnd_idem.
Qed.

Lemma split_comma_cons (s : string) : exists piece pieces, split_comma s = piece :: pieces.
Proof.
  induction s as [| c s (piece & pieces & IH)]; simpl; [eauto |].
  destruct (Ascii.eqb c ","); [eauto |]. rewrite IH. eauto.
Qed.

Lemma split_comma_blank (s : string) :
  all_chars comma_or_space s = true ->
  Forall (fun piece => all_chars is_space piece = true) (split_comma s).
Proof.
  induction s as [| c s IH]; simpl; [repeat constructor |].
  intros H. apply andb_prop in H as [Hc H]. specialize (IH H).
  unfold comma_or_space in Hc.
  destruct (Ascii.eqb c ","); simpl in Hc; [constructor; [reflexivity | exact IH] |].
  destruct (split_comma s) as [| piece pieces]; [repeat constructor; simpl; now rewrite Hc |].
  inversion IH as [| ? ? Hp Hps]; subst.
  constructor; [simpl; rewrite Hc, Hp; reflexivity | exact Hps].
Qed.

Lemma split_comma_one (o : string) :
  all_chars (fun c => negb (Ascii.eqb c ",")) o = true -> split_comma o = [o].
Proof.
  induction o as [| c o IH]; simpl; [reflexivity |].
  intros H. apply andb_prop in H as [Hc H].
  destruct (Ascii.eqb c ","); [discriminate |]. rewrite (IH H). reflexivity.
Qed.

Lemma split_comma_app (o rest : string) :
  all_chars (fun c => negb (Ascii.eqb c ",")) o = true ->
  split_comma (o ++ String "," rest) = o :: split_comma rest.
Proof.
  induction o as [| c o IH]; [reflexivity |]. rewrite str_app_cons. simpl.
  intros H. apply andb_prop in H as [Hc H].
  destruct (Ascii.eqb c ","); [discriminate |]. rewrite (IH H). reflexivity.
Qed.

Lemma split_comma_concat (l : list string) :
  l <> [] ->
  Forall clean_origin l ->
  split_comma (String.concat "," l) = l.
Proof.
  intros Hne Hall. induction Hall as [| o l (_ & Ho & _) Hl IH]; [congruence |].
  destruct l as [| o' l'].
  - simpl. apply split_comma_one. exact Ho.
  - change (String.concat "," (o :: o' :: l'))
      with (o ++ String "," (String.concat "," (o' :: l'))).
    rewrite split_comma_app by exact Ho. f_equal. apply IH. discriminate.
Qed.

Lemma truthy_app (a b : string) : truthy a = true -> truthy (a ++ b) = true.
Proof. destruct a; [discriminate | reflexivity]. Qed.

Lemma allowedOrigins_set (s : string) :
  truthy s = true ->
  allowedOrigins (Some s) =
  Some (filter (fun o => truthy o = true) (trim <$> split_comma s)).
Proof. intros H. unfold allowedOrigins. simpl. rewrite H. reflexivity. Qed.

Lemma allowedOrigins_unset (c : option string) :
  truthy_opt c = false -> allowedOrigins c = None.
Proof. intros H. unfold allowedOrigins. rewrite H. reflexivity. Qed.

(** The entries of the allow-list are the truthy trimmed pieces. *)
Lemma allowedOrigins_In (c : option string) (l : list string) (o : string) :
  allowedOrigins c = Some l ->
  (In o l <->
   truthy o = true /\
   exists s piece, c = Some s /\ In piece (split_comma s) /\ trim piece = o).
Proof.
  unfold allowedOrigins.
  destruct (truthy_opt c) eqn:Hc; [| discriminate].
  destruct c as [s |]; [| discriminate]. intros [= <-].
  rewrite <- list_elem_of_In, list_elem_of_filter, list_elem_of_fmap.
  split.
  - intros (Ho & piece & -> & Hp). split; [exact Ho |].
    exists s, piece. rewrite <- list_elem_of_In. auto.
  - intros (Ho & s' & piece & [= <-] & Hp & <-). split; [exact Ho |].
    exists piece. rewrite list_elem_of_In. auto.
Qed.

End CorsFacts.

(** X18. No entry of the allow-list is empty, and none begins or ends
    with white space or a line terminator: the entries are what [trim]
    leaves of the pieces between commas. *)
Theorem allowed_origins_are_trimmed (c : option string) (l : list string) (o : string) :
  allowedOrigins c = Some l ->
  In o l ->
  truthy o = true /\ trim o = o.
Proof.
  intros Hl Ho. apply (allowedOrigins_In c l o Hl) in Ho
    as (Ht & s & piece & _ & _ & <-).
  split; [exact Ht | apply trim_idem].
Qed.

(** X19. The [origin] callback accepts a request exactly when no
    allow-list is configured ([CORS_ORIGINS] unset or empty), or the
    request has no [Origin], or its [Origin] is, character for character,
    the trimmed form of one of the comma-separated pieces of
    [CORS_ORIGINS]; otherwise it fails with "Not allowed by CORS". *)
Theorem cors_origin_decision (c origin : option string) :
  (cors_origin c origin = Ok true <->
   truthy_opt c = false \/
   truthy_opt origin = false \/
   exists s o piece,
     c = Some s /\ origin = Some o /\ In piece (split_comma s) /\ trim piece = o) /\
  (cors_origin c origin = Ok true \/
   cors_origin c origin = Throw (Error "Not allowed by CORS")).
Proof.
  unfold cors_origin.
  destruct (allowedOrigins c) as [l |] eqn:Hl.
  - assert (truthy_opt c = true) as Hc.
    { unfold allowedOrigins in Hl. destruct (truthy_opt c); [reflexivity | discriminate]. }
    destruct (truthy_opt origin) eqn:Horigin; simpl.
    + destruct origin as [o |]; [| discriminate]. simpl in Horigin.
      unfold or_str. rewrite Horigin.
      destruct (includes l o) eqn:Hinc.
      * split; [| left; reflexivity]. split; [| reflexivity]. intros _.
        right. right. apply includes_In in Hinc.
        apply (allowedOrigins_In c l o Hl) in Hinc as (_ & s & piece & -> & Hp & Ht).
        exists s, o, piece. auto.
      * split; [| right; reflexivity]. split; [discriminate |].
        intros [H | [H | (s & o' & piece & -> & [= <-] & Hp & Ht)]];
          [congruence | congruence |].
        assert (In o l) as Hin.
        { apply (allowedOrigins_In (Some s) l o Hl). split; [exact Horigin |].
          exists s, piece. auto. }
        apply includes_In in Hin. congruence.
    + split; [| left; reflexivity]. split; [auto | reflexivity].
  - split; [| left; reflexivity]. split; [| reflexivity]. intros _. left.
    unfold allowedOrigins in Hl. destruct c as [s |]; [| reflexivity].
    simpl in *. destruct (truthy s); [discriminate Hl | reflexivity].
Qed.

(** X20. A [CORS_ORIGINS] that is not empty but holds nothing except
    commas and blanks configures an empty allow-list, not the absence of
    one: every request that carries an [Origin] is refused. *)
Theorem blank_cors_origins_blocks_all (s origin : string) :
  truthy s = true ->
  all_chars comma_or_space s = true ->
  truthy origin = true ->
  allowedOrigins (Some s) = Some [] /\
  cors_origin (Some s) (Some origin) = Throw (Error "Not allowed by CORS").
Proof.
  intros Hs Hblank Horigin.
  assert (allowedOrigins (Some s) = Some []) as Hl.
  { rewrite allowedOrigins_set by exact Hs. f_equal.
    pose proof (split_comma_blank s Hblank) as Hall.
    induction Hall as [| piece pieces Hp _ IH]; [reflexivity |].
    rewrite fmap_cons, filter_cons_False; [exact IH |].
    rewrite (trim_blank piece Hp). discriminate. }
  split; [exact Hl |].
  unfold cors_origin, truthy_opt, or_str. rewrite Hl, Horigin. reflexivity.
Qed.

(** X21. Writing origins one after the other with commas between them, as
    the README does, and reading the list back gives the same origins in
    the same order, provided each is not empty, has no comma, and has no
    white space or line terminator in front or behind; each of them is
    then accepted. *)
Theorem cors_origins_round_trip (l : list string) :
  l <> [] ->
  Forall clean_origin l ->
  allowedOrigins (Some (String.concat "," l)) = Some l /\
  forall o, In o l -> cors_origin (Some (String.concat "," l)) (Some o) = Ok true.
Proof.
  intros Hne Hall.
  assert (allowedOrigins (Some (String.concat "," l)) = Some l) as Hl.
  { rewrite allowedOrigins_set.
    - rewrite split_comma_concat by assumption. f_equal.
      clear Hne. induction Hall as [| o l' (Ht & _ & Htrim) _ IH]; [reflexivity |].
      rewrite fmap_cons, Htrim, filter_cons_True by exact Ht. f_equal. exact IH.
    - destruct Hall as [| o l' (Ht & _) _]; [congruence |].
      destruct l'; [exact Ht | apply truthy_app; exact Ht]. }
  split; [exact Hl |].
  intros o Ho. unfold cors_origin. rewrite Hl.
  assert (truthy o = true) as Ht.
  { rewrite Forall_forall in Hall. apply Hall. apply list_elem_of_In. exact Ho. }
  unfold truthy_opt, or_str. rewrite Ht.
  apply includes_In in Ho. cbn [negb]. rewrite Ho. reflexivity.
Qed.

(** The allow-list of the README, with blanks around the comma. *)
Lemma allowed_origins_are_trimmed_witness :
  allowedOrigins (Some "http://localhost:3000 , https://dev.example.com") =
    Some ["http://localhost:3000"; "https://dev.example.com"] /\
  trim "http://localhost:3000" = "http://localhost:3000".
Proof.
  split; [reflexivity |].
  refine (proj2 (allowed_origins_are_trimmed
                   (Some "http://localhost:3000 , https://dev.example.com")
                   _ "http://localhost:3000" eq_refl _)).
  left. reflexivity.
Defined.

(** A lone comma. *)
Lemma blank_cors_origins_blocks_all_witness :
  cors_origin (Some ",") (Some "http://localhost:3000") =
  Throw (Error "Not allowed by CORS").
Proof.
  exact (proj2 (blank_cors_origins_blocks_all "," "http://localhost:3000"
                  eq_refl eq_refl eq_refl)).
Defined.

(** The allow-list of the README. *)
Lemma cors_origins_round_trip_witness :
  allowedOrigins (Some "http://localhost:3000,https://dev.example.com") =
  Some ["http://localhost:3000"; "https://dev.example.com"].
Proof.
  refine (proj1 (cors_origins_round_trip
                   ["http://localhost:3000"; "https://dev.example.com"] _ _)).
  - discriminate.
  - repeat constructor.
Defined.

(** An allow-list written with a no-break space in front of the origin:
    [trim] removes it, and the origin is accepted. *)
Lemma cors_origin_decision_witness :
  trim (nbsp ++ "http://a.example") = "http://a.example" /\
  cors_origin (Some (nbsp ++ "http://a.example")) (Some "http://a.example") = Ok true.
Proof.
  split; [reflexivity |].
  apply (proj1 (cors_origin_decision (Some (nbsp ++ "http://a.example"))
                  (Some "http://a.example"))).
  right. right.
  exists (nbsp ++ "http://a.example"), "http://a.example", (nbsp ++ "http://a.example").
  repeat split. left. reflexivity.
Defined.

(** What [trim] removes at both ends besides the blanks of one byte: the
    no-break space, the byte order mark, the line separator and the
    ideographic space. It does not remove the zero width space U+200B, nor
    the last byte of a letter. *)
Lemma trim_beyond_ascii :
  trim (nbsp ++ " a b " ++ nbsp) = "a b" /\
  trim (String "239" (String "187" (String "191" "a"))) = "a" /\
  trim (String "a" (String "226" (String "128" (String "168" "")))) = "a" /\
  trim (String "227" (String "128" (String "128" "a"))) = "a" /\
  trim (String "226" (String "128" (String "139" "a"))) =
    String "226" (String "128" (String "139" "a")) /\
  trim (String "195" (String "160" "")) = String "195" (String "160" "").
Proof. repeat split. Qed.

(** * Properties of the request ids *)

Section RequestIds.

Lemma proxy_error_state (res : nat) (hs : option bool) (err : Thrown) (st : LogState) :
  fst (proxy_error res hs err st) =
  match logIds st !! res with
  | Some (S n) => st
  | _ => {| reqSeq := S (reqSeq st); logIds := logIds st |}
  end.
Proof.
  unfold proxy_error. destruct (logIds st !! res) as [[| n] |]; reflexivity.
Qed.

Lemma arrive_state (res : nat) (method url : string) (st : LogState) :
  log_step st (Arrive res method url) =
  {| reqSeq := S (reqSeq st); logIds := <[res := S (reqSeq st)]> (logIds st) |}.
Proof. reflexivity. Qed.

Lemma log_step_ids_ok (st : LogState) (s : LogStep) :
  ids_ok st -> ids_ok (log_step st s).
Proof.
  intros [Hrange Hinj]. destruct s as [res method url | res hs err].
  - rewrite arrive_state. unfold ids_ok. cbn [reqSeq logIds]. split.
    + intros res0 id. destruct (decide (res = res0)) as [-> | Hne].
      * rewrite lookup_insert_eq. intros [= <-]. lia.
      * rewrite lookup_insert_ne by exact Hne. intros H.
        apply Hrange in H. lia.
    + intros r1 r2 id.
      destruct (decide (res = r1)) as [-> | Hne1];
        destruct (decide (r1 = r2)) as [-> | Hne2]; try reflexivity.
      * rewrite lookup_insert_eq, lookup_insert_ne by exact Hne2.
        intros [= <-] H. apply Hrange in H. lia.
      * rewrite lookup_insert_ne by exact Hne1.
        destruct (decide (res = r2)) as [-> | Hne3].
        -- rewrite lookup_insert_eq. intros H [= <-]. apply Hrange in H. lia.
        -- rewrite lookup_insert_ne by exact Hne3. apply Hinj.
  - cbn [log_step]. rewrite proxy_error_state.
    destruct (logIds st !! res) as [[| n] |]; [| split; assumption |];
      (split; [intros res0 id H; apply Hrange in H; simpl; lia | exact Hinj]).
Qed.

Lemma fold_log_step_ids_ok (steps : list LogStep) (st : LogState) :
  ids_ok st -> ids_ok (fold_left log_step steps st).
Proof.
  revert st. induction steps as [| s steps IH]; intros st H; simpl; [exact H |].
  apply IH. apply log_step_ids_ok. exact H.
Qed.

Lemma run_log_ids_ok (steps : list LogStep) : ids_ok (run_log steps).
Proof.
  apply fold_log_step_ids_ok. split.
  - intros res id H. simpl in H. rewrite lookup_empty in H. discriminate H.
  - intros res res' id H. simpl in H. rewrite lookup_empty in H. discriminate H.
Qed.

Lemma fold_log_step_count (steps : list LogStep) (seen : list nat) (st : LogState) :
  (forall res, res ∈ seen -> exists n, logIds st !! res = Some (S n)) ->
  failures_follow_arrivals seen steps = true ->
  reqSeq (fold_left log_step steps st) = reqSeq st + arrivals steps.
Proof.
  revert seen st. induction steps as [| s steps IH]; intros seen st Hseen Hok; simpl.
  - lia.
  - destruct s as [res method url | res hs err]; simpl in Hok.
    + rewrite (IH (res :: seen)); [| | exact Hok].
      * rewrite arrive_state. simpl. lia.
      * intros r Hr. rewrite arrive_state. cbn [logIds].
        apply elem_of_cons in Hr as [-> | Hr].
        -- rewrite lookup_insert_eq. eauto.
        -- destruct (decide (res = r)) as [-> | Hne].
           ++ rewrite lookup_insert_eq. eauto.
           ++ rewrite lookup_insert_ne by exact Hne. apply Hseen. exact Hr.
    + apply andb_prop in Hok as [Hres Hok]. apply bool_decide_eq_true in Hres.
      destruct (Hseen res Hres) as [n Hn].
      assert (log_step st (ProxyFail res hs err) = st) as ->.
      { cbn [log_step]. rewrite proxy_error_state, Hn. reflexivity. }
      rewrite (IH seen); [| exact Hseen | exact Hok]. reflexivity.
Qed.

End RequestIds.

(** X22. Whatever the order in which requests arrive and proxy errors are
    reported, every [_logId] in use is at least 1 and at most [reqSeq], and
    no two responses share one. *)
Theorem request_ids_are_unique (steps : list LogStep) (res res' id : nat) :
  logIds (run_log steps) !! res = Some id ->
  1 <= id <= reqSeq (run_log steps) /\
  (logIds (run_log steps) !! res' = Some id -> res = res').
Proof.
  intros H. destruct (run_log_ids_ok steps) as [Hrange Hinj].
  split; [apply (Hrange res id H) | intros H'; exact (Hinj res res' id H H')].
Qed.

(** X23. A proxy error for a response that went through the logging
    middleware is logged under the id of its request and draws no new id:
    the counter and the ids are left as they were. The handler writes the
    status line [502] only when the response has a [headersSent] property
    that is [false], and always ends the response with the [proxy_error]
    document. *)
Theorem proxy_error_keeps_request_id (steps : list LogStep) (res id : nat)
    (headersSent : option bool) (err : Thrown) :
  logIds (run_log steps) !! res = Some id ->
  proxy_error res headersSent err (run_log steps) =
  (run_log steps,
   [Console (logError id err None)]
   ++ match headersSent with
      | Some false => [WriteHead 502 [("Content-Type", "application/json")]]
      | _ => []
      end
   ++ [End_ (JObj [("error", JStr "proxy_error"); ("detail", JStr (String_ err))])])%list.
Proof.
  intros H. destruct (run_log_ids_ok steps) as [Hrange _].
  pose proof (Hrange res id H) as Hid.
  unfold proxy_error. rewrite H.
  destruct id as [| n]; [lia | reflexivity].
Qed.

(** X24. When every proxy error is reported for a response whose request
    had arrived, [reqSeq] is the number of requests that arrived: errors
    and their interleaving with arrivals do not advance it. *)
Theorem counter_counts_requests (steps : list LogStep) :
  failures_follow_arrivals [] steps = true ->
  reqSeq (run_log steps) = arrivals steps.
Proof.
  intros H. unfold run_log.
  rewrite (fold_log_step_count steps [] log_start); [reflexivity | | exact H].
  intros res Hres. apply elem_of_nil in Hres. destruct Hres.
Qed.

(** Two requests, the first of which fails at the proxy after the second
    has arrived. *)
Lemma request_ids_are_unique_witness :
  logIds (run_log [Arrive 10 "GET" "/a"; Arrive 11 "GET" "/b";
                   ProxyFail 10 (Some false) (Error "ECONNREFUSED")]) !! 10 = Some 1 /\
  1 <= 1 <= reqSeq (run_log [Arrive 10 "GET" "/a"; Arrive 11 "GET" "/b";
                             ProxyFail 10 (Some false) (Error "ECONNREFUSED")]).
Proof.
  assert (logIds (run_log [Arrive 10 "GET" "/a"; Arrive 11 "GET" "/b";
                           ProxyFail 10 (Some false) (Error "ECONNREFUSED")]) !! 10
          = Some 1) as H by (vm_compute; reflexivity).
  split; [exact H |].
  exact (proj1 (request_ids_are_unique _ 10 10 1 H)).
Defined.

Lemma proxy_error_keeps_request_id_witness :
  fst (proxy_error 10 (Some false) (Error "ECONNREFUSED")
         (run_log [Arrive 10 "GET" "/a"; Arrive 11 "GET" "/b"])) =
  run_log [Arrive 10 "GET" "/a"; Arrive 11 "GET" "/b"].
Proof.
  rewrite (proxy_error_keeps_request_id [Arrive 10 "GET" "/a"; Arrive 11 "GET" "/b"]
             10 1 (Some false) (Error "ECONNREFUSED")).
  - reflexivity.
  - vm_compute. reflexivity.
Defined.

Lemma counter_counts_requests_witness :
  reqSeq (run_log [Arrive 10 "GET" "/a"; Arrive 11 "GET" "/b";
                   ProxyFail 10 (Some false) (Error "ECONNREFUSED");
                   Arrive 12 "POST" "/c"]) = 3.
Proof.
  rewrite counter_counts_requests; reflexivity.
Defined.

(** * Legacy export normalization and the loader *)

Section Legacy.

Lemma collect_items_rules (exportName : option string) (rs : list addr) :
  c_rule <$> collect_items exportName (Some <$> rs) = rs.
Proof.
  unfold collect_items. induction rs as [| a rs IH]; [reflexivity |].
  simpl. f_equal. exact IH.
Qed.

End Legacy.

(** X25. For an exports object [{ default, rules }] the loader of
    [main.ts] collects the rules of [default] and then those of [rules],
    whereas [normalizeModule] returns those of [rules] alone as soon as
    [rules] is there, even empty; the two agree when [rules] is absent and
    [default] is there; and when both are absent [normalizeModule] returns
    the exports object itself where the loader collects nothing. *)
Theorem normalizeModule_against_loader (default : option (addr + list addr))
    (rules : option (list addr)) :
  c_rule <$> collect (exports_ns default rules) =
    (default_rules default ++ match rules with Some rs => rs | None => [] end)%list /\
  (forall rs, rules = Some rs ->
     normalizeModule (ModExports default rules) = Some <$> rs) /\
  (rules = None -> default <> None ->
     normalizeModule (ModExports default rules) =
     Some <$> (c_rule <$> collect (exports_ns default rules))) /\
  (rules = None -> default = None ->
     normalizeModule (ModExports default rules) = [None] /\
     collect (exports_ns default rules) = []).
Proof.
  split; [| split; [| split]].
  - destruct default as [[d | ds] |], rules as [rs |];
      unfold collect, exports_ns, mod_get; simpl;
      rewrite ?fmap_app, ?collect_items_rules, ?app_nil_r; reflexivity.
  - intros rs ->. destruct default as [[d | ds] |]; reflexivity.
  - intros -> Hd. destruct default as [[d | ds] |]; [| | congruence].
    + reflexivity.
    + unfold collect, exports_ns, mod_get. simpl.
      rewrite app_nil_r, collect_items_rules. reflexivity.
  - intros -> ->. split; reflexivity.
Qed.

(** A default rule beside an empty [rules] array. *)
Lemma normalizeModule_against_loader_witness :
  normalizeModule (ModExports (Some (inl 0)) (Some [])) = [] /\
  c_rule <$> collect (exports_ns (Some (inl 0)) (Some [])) = [0].
Proof.
  destruct (normalizeModule_against_loader (Some (inl 0)) (Some []))
    as (Hc & Hn & _).
  split; [exact (Hn [] eq_refl) | exact Hc].
Defined.
